(** * The utterance generator of [utils/gen.py]

    A shallow embedding of the class [UtteranceGenerator]: the normalizer
    [preprocess], the phrase table [get_phrases], part-of-speech resolution
    [get_pos], the similarity filter [get_similarities], the synonym lookup
    [get_synonyms], the synonym map builder [map_synonyms], the two
    assemblers [add_synonyms] and [add_phrases], and [generate].

    Conventions.
    - A Python [str] is a [list ascii]; the character classes of [re] and of
      [str] are given on the ASCII range, which is where the model speaks
      for the code.
    - Integers that can be negative in the source (the result of [str.find],
      slice bounds) are in [Z]; Python's slice clipping is written out.
    - numpy's floats are Rocq's primitive binary64 floats.
    - spaCy, WordNet and the module-level embedding model are external
      resources: they are the fields of an environment record.
    - An exception is the [Raise] branch of a result type. *)

From Stdlib Require Import ZArith List Ascii String Bool Lia PrimFloat.
From stdpp Require Import base option list gmap strings.

Import ListNotations.
Local Open Scope Z_scope.

(** ** Python strings *)

Abbreviation str := (list ascii).

(** A string literal of the source. *)
Definition py (s : string) : str := list_ascii_of_string s.

Definition len {A} (l : list A) : Z := Z.of_nat (length l).

Module Char.

Definition code (c : ascii) : nat := nat_of_ascii c.

Definition between (lo hi : nat) (c : ascii) : bool :=
  (Nat.leb lo (code c) && Nat.leb (code c) hi)%bool.

Definition is_upper (c : ascii) : bool := between 65 90 c.

(** [[0-9]] *)
Definition is_digit (c : ascii) : bool := between 48 57 c.

(** [\w]: letters, digits and the underscore. *)
Definition is_word (c : ascii) : bool :=
  (between 65 90 c || between 97 122 c || is_digit c || Nat.eqb (code c) 95)%bool.

(** The separators of [str.split()] without argument: tab, line feed,
    vertical tab, form feed, carriage return, the four information
    separators and the space. *)
Definition is_space (c : ascii) : bool :=
  (between 9 13 c || between 28 32 c)%bool.

(** [str.lower] on one character. *)
Definition lower (c : ascii) : ascii :=
  if is_upper c then ascii_of_nat (code c + 32) else c.

Definition lt : ascii := "<"%char.
Definition gt : ascii := ">"%char.
Definition newline : ascii := "010"%char.
Definition space : ascii := " "%char.
Definition underscore : ascii := "_"%char.

(** A character that [preprocess] leaves in a token: a word character
    that is no digit and that [lower] does not change. *)
Definition normal (c : ascii) : bool :=
  (is_word c && negb (is_digit c) && bool_decide (lower c = c))%bool.

End Char.

(** [s.startswith(sub)] *)
Fixpoint starts_with (s sub : str) {struct sub} : bool :=
  match sub, s with
  | [], _ => true
  | _ :: _, [] => false
  | x :: sub', y :: s' => if decide (x = y) then starts_with s' sub' else false
  end.

(** The lowest index [k >= i] at which [sub] occurs, [s] being the part of
    the searched string that starts at index [i]. *)
Fixpoint find_at (s sub : str) (i : nat) : option nat :=
  if starts_with s sub then Some i
  else match s with
       | [] => None
       | _ :: r => find_at r sub (S i)
       end.

(** A slice bound [k] of Python on a sequence of [n] elements: a negative
    bound counts from the end, and every bound is clipped to [0..n]. *)
Definition slice_bound (n : nat) (k : Z) : nat :=
  if k <? 0 then Z.to_nat (Z.max 0 (k + Z.of_nat n))
  else Z.to_nat (Z.min k (Z.of_nat n)).

(** [s[:k]] and [s[k:]] *)
Definition slice_to (s : str) (k : Z) : str := take (slice_bound (length s) k) s.
Definition slice_from (s : str) (k : Z) : str := drop (slice_bound (length s) k) s.

(** [s.find(sub, start)]: [-1] when there is no occurrence. *)
Definition find (s sub : str) (start : Z) : Z :=
  let st := if start <? 0 then Z.max 0 (start + len s) else start in
  if len s <? st then -1
  else match find_at (drop (Z.to_nat st) s) sub (Z.to_nat st) with
       | Some k => Z.of_nat k
       | None => -1
       end.

(** [sub in s] *)
Definition contains (s sub : str) : bool :=
  match find_at s sub 0 with Some _ => true | None => false end.

(** [s.replace(old, new)] for a non-empty [old]: occurrences are taken from
    the left and do not overlap; [skip] counts the characters of the current
    occurrence still to be dropped. *)
Fixpoint replace_go (old new : str) (skip : nat) (s : str) : str :=
  match s with
  | [] => []
  | c :: r =>
      match skip with
      | S k => replace_go old new k r
      | O => if starts_with s old
             then new ++ replace_go old new (length old - 1) r
             else c :: replace_go old new 0 r
      end
  end.

(** [s.replace(old, new)]; with an empty [old], [new] is put before every
    character and at the end. *)
Definition replace (s old new : str) : str :=
  match old with
  | [] => new ++ concat (map (fun c => c :: new) s)
  | _ :: _ => replace_go old new 0 s
  end.

(** Maximal runs of characters that are not separators: [str.split()] when
    [sep] is [Char.is_space], and [re.findall] of [\w+] when [sep] is the
    complement of [Char.is_word]. *)
Fixpoint runs (sep : ascii -> bool) (s : str) : list str :=
  match s with
  | [] => []
  | c :: r =>
      if sep c then runs sep r
      else match r with
           | [] => [[c]]
           | c' :: _ =>
               if sep c' then [c] :: runs sep r
               else match runs sep r with
                    | w :: ws => (c :: w) :: ws
                    | [] => [[c]]
                    end
           end
  end.

(** [s.split()] *)
Definition split (s : str) : list str := runs Char.is_space s.

(** [s.split(ch)] for a one-character separator: the fields between the
    occurrences of [ch], empty fields included. *)
Fixpoint split_on (ch : ascii) (s : str) : list str :=
  match s with
  | [] => [[]]
  | c :: r =>
      if decide (c = ch) then [] :: split_on ch r
      else match split_on ch r with
           | w :: ws => (c :: w) :: ws
           | [] => [[c]]
           end
  end.

(** [sep.join(l)] *)
Fixpoint join (sep : str) (l : list str) : str :=
  match l with
  | [] => []
  | [w] => w
  | w :: ws => w ++ sep ++ join sep ws
  end.

(** ** [preprocess] *)

(** Is there a [>] ahead before any line break?  ([.] does not match a line
    feed: the pattern is compiled without flags.) *)
Fixpoint closes (s : str) : bool :=
  match s with
  | [] => false
  | c :: r =>
      if decide (c = Char.gt) then true
      else if decide (c = Char.newline) then false
      else closes r
  end.

(** [re.sub('<.*?>', '', s)]: a [<] that is closed on its line opens a
    match, which runs through the first [>] after it; [inside] says that
    such a match is open. *)
Fixpoint sub_tags (inside : bool) (s : str) : str :=
  match s with
  | [] => []
  | c :: r =>
      if inside then
        if decide (c = Char.gt) then sub_tags false r else sub_tags true r
      else if (bool_decide (c = Char.lt) && closes r)%bool then sub_tags true r
      else c :: sub_tags false r
  end.

(** [re.sub('[0-9]+', '', s)] *)
Definition sub_digits (s : str) : str := filter (fun c => Char.is_digit c = false) s.

(** [RegexpTokenizer(r'\w+').tokenize(s)] *)
Definition tokenize (s : str) : list str := runs (fun c => negb (Char.is_word c)) s.

Definition preprocess (utterance : str) : str :=
  let lower := map Char.lower utterance in
  let cleantext := sub_tags false lower in
  let rem_num := sub_digits cleantext in
  join (py " ") (tokenize rem_num).

(** ** [get_phrases] *)

Definition need : list str := map py
  ["do i need"; "do i need to"; "must i"; "must i have"; "is it required that i";
   "will i need"; "will i need to"].
Definition signs : list str := map py
  ["what are the signs i need"; "what are the signs i need"; "how do i know i need";
   "when will i need to"; "how can i know i need to"; "what are the signs you should";
   "when should i have"; "how do i know i should have"].
Definition timing : list str := map py
  ["when will I get"; "when can I expect"; "when are"; "by when should I have"].
Definition frequency : list str := map py
  ["how often do i need"; "what is the timeframe for"].
Definition scheduling : list str := map py
  ["when is my"; "on what date"; "when do i see"].
Definition insurance : list str := map py
  ["is this covered"; "will my insurance cover"; "will insurance cover"; "do i need to pay"].
Definition bill : list str := map py
  ["what is my bill"; "how much do i owe"; "how much will i pay for"].
Definition location : list str := map py
  ["where is"; "where can i find"; "how can i find"; "i cant find"; "what is the location";
   "can i have the location"].
Definition ability : list str := map py
  ["what can i"; "is there anything i can"; "can i"].
Definition preparation : list str := map py
  ["what do i need"; "how do i prepare"; "how can i get ready for"; "what should i bring"].
Definition forgetfulness : list str := map py
  ["what if i forgot"; "i forgot to"; "is it ok if i forgot"].
Definition explanation : list str := map py
  ["what is"; "tell me what is"; "describe"; "i want to understand"].

Definition get_phrases : list (list str) :=
  [need; signs; timing; bill; frequency; scheduling; insurance; location; ability;
   preparation; forgetfulness; explanation].


(** ** Exceptions *)

Inductive exn : Type :=
  | ValueError (msg : string)
  | KeyError (key : str).

Inductive result (A : Type) : Type :=
  | Ok (a : A)
  | Raise (e : exn).

Arguments Ok {A} a.
Arguments Raise {A} e.

Definition bind {A B} (r : result A) (k : A -> result B) : result B :=
  match r with
  | Ok a => k a
  | Raise e => Raise e
  end.

Notation "x <- r ;; k" := (bind r (fun x => k))
  (at level 100, r at next level, right associativity).

Definition raises {A} (r : result A) : Prop :=
  match r with Ok _ => False | Raise _ => True end.

(** ** numpy *)

Module Np.

Abbreviation vec := (list float).

(** [np.empty(0)] *)
Definition empty0 : vec := [].

(** [v.any()]: some component is not zero. *)
Definition any (v : vec) : bool := existsb (fun x => negb (PrimFloat.eqb x 0)) v.

Definition sum (v : vec) : float := fold_left PrimFloat.add v 0%float.

(** [numpy.linalg.norm(v)] *)
Definition norm (v : vec) : float :=
  PrimFloat.sqrt (sum (map (fun x => PrimFloat.mul x x) v)).

(** [np.dot(v1, v2)] on one-dimensional arrays: the shapes must agree. *)
Definition dot (v1 v2 : vec) : result float :=
  if Nat.eqb (length v1) (length v2)
  then Ok (sum (zip_with PrimFloat.mul v1 v2))
  else Raise (ValueError "shapes not aligned").

(** [v / x] *)
Definition div_scalar (v : vec) (x : float) : vec :=
  map (fun y => PrimFloat.div y x) v.

End Np.

(** ** The external resources *)

(** An embedding model: [get_vector] answers [None] where the model raises
    (the key is unknown, or the object has no such method), and [truthy] is
    the truth value [bool(model)] of the object. *)
Record Model : Type := {
  get_vector : str -> option Np.vec;
  truthy : bool
}.

(** [nlp text] is spaCy's analysis of [text], each token with its [pos_];
    [synsets word pos] is [wn.synsets(word, pos=pos)], each synset given by
    its [lemma_names()]; [wikimodel] is the module-level embedding model. *)
Record Env : Type := {
  nlp : str -> list (str * str);
  synsets : str -> str -> list (list str);
  wikimodel : Model
}.

(** ** The class *)

Record Generator : Type := {
  _utterance : str;
  _posmap : gmap str str;
  _model : Model;
  _phrasebank : list (list str);
  _synonymsdict : gmap str (list str)
}.

Definition posmap : gmap str str :=
  list_to_map
    [(py "VERB", py "v"); (py "NOUN", py "n"); (py "PRON", py "n");
     (py "PROPN", py "n"); (py "ADJ", py "a"); (py "ADV", py "r")].

Definition supported_pos : list str :=
  map py ["VERB"; "NOUN"; "PRON"; "PROPN"; "ADJ"; "ADV"].

(** [d[key] = value] on a dictionary kept in insertion order. *)
Fixpoint dict_set {V} (d : list (str * V)) (key : str) (value : V) : list (str * V) :=
  match d with
  | [] => [(key, value)]
  | (k, v) :: rest =>
      if decide (k = key) then (k, value) :: rest
      else (k, v) :: dict_set rest key value
  end.

(** The constant [0.70] of [get_synonyms], as the binary64 value that the
    literal denotes. *)
Definition threshold : float := 0x1.6666666666666p-1%float.

Section Methods.

Variable env : Env.

(** The value is [None] where the loop ends without a [return]. *)
Definition get_pos (self : Generator) (word : str) : result (option str) :=
  if (bool_decide (_utterance self = []) || bool_decide (word = []))%bool
  then Raise (ValueError "Error: Input is empty string.")
  else if negb (contains (_utterance self) (preprocess word))
  then Raise (ValueError "Error: The word is not in the utterance.")
  else Ok (snd <$> List.find (fun w => bool_decide (fst w = word))
                             (nlp env (_utterance self))).

Definition cosinesim (v1 v2 : Np.vec) : result float :=
  Np.dot v1 (Np.div_scalar v2 (PrimFloat.mul (Np.norm v1) (Np.norm v2))).

Definition embed (vector : str) (model : Model) : Np.vec :=
  match get_vector model vector with
  | Some vec => vec
  | None => Np.empty0
  end.

(** The loop of [get_similarities] over the synonyms, [sims] being the
    dictionary built so far. *)
Fixpoint score_all (ref : Np.vec) (model : Model) (synonyms : list str)
    (sims : list (str * float)) : result (list (str * float)) :=
  match synonyms with
  | [] => Ok sims
  | s :: rest =>
      let vec := embed s model in
      if Np.any vec then
        sim <- cosinesim ref vec ;;
        score_all ref model rest (dict_set sims s sim)
      else score_all ref model rest sims
  end.

Definition get_similarities (word : str) (synonyms : list str) (model : Model)
    : result (list (str * float)) :=
  let sims := [(word, 1%float)] in
  let ref := embed word model in
  score_all ref model synonyms sims.

(** The value is [None] for the bare [return]; a Python set is the list of
    its elements without repetition (Python leaves their order open). *)
Definition get_synonyms (self : Generator) (word : str) : result (option (list str)) :=
  pos <- get_pos self (preprocess word) ;;
  match pos with
  | None => Ok None
  | Some pos =>
      if bool_decide (pos ∈ supported_pos) then
        match _posmap self !! pos with
        | None => Raise (KeyError pos)
        | Some p =>
            let synonyms :=
              remove_dups
                (synset ← synsets env word p;
                 synonym ← synset;
                 if bool_decide (1 < len word) then [synonym] else []) in
            if negb (truthy (_model self)) then Ok (Some synonyms)
            else
              similarities <- get_similarities word synonyms (_model self) ;;
              Ok (Some (fst <$> List.filter
                          (fun kv => PrimFloat.leb threshold (snd kv)) similarities))
        end
      else Ok None
  end.

(** The truth value of what [get_synonyms] returned. *)
Definition nonempty (synonyms : option (list str)) : bool :=
  match synonyms with
  | Some (_ :: _) => true
  | _ => false
  end.

Definition keep_synonym (word synonym : str) : bool :=
  (Nat.eqb (length (split_on Char.underscore synonym)) 1
   && negb (bool_decide (preprocess synonym = word)))%bool.

(** The loop of [map_synonyms] over the words, [d] being the dictionary
    built so far. *)
Fixpoint map_words (self : Generator) (words : list str) (d : gmap str (list str))
    : result (gmap str (list str)) :=
  match words with
  | [] => Ok d
  | word :: rest =>
      synonyms <- get_synonyms self word ;;
      let synonyms :=
        if nonempty synonyms
        then List.filter (keep_synonym word) <$> synonyms
        else synonyms in
      if nonempty synonyms
      then map_words self rest (<[word := default [] synonyms]> d)
      else map_words self rest d
  end.

Definition map_synonyms (self : Generator) : result (gmap str (list str)) :=
  map_words self (split (_utterance self)) ∅.

(** [__init__]: the attributes are set in the order of the source, so
    [map_synonyms] runs on an object that has no synonym map yet. *)
Definition init (utterance : str) (model : option Model) : result Generator :=
  let self :=
    {| _utterance := preprocess utterance;
       _posmap := posmap;
       _model := match model with
                 | Some m => if truthy m then m else wikimodel env
                 | None => wikimodel env
                 end;
       _phrasebank := get_phrases;
       _synonymsdict := ∅ |} in
  d <- map_synonyms self ;;
  Ok {| _utterance := _utterance self;
        _posmap := _posmap self;
        _model := _model self;
        _phrasebank := _phrasebank self;
        _synonymsdict := d |}.

End Methods.

(** ** The assemblers *)

(** The first loop of [add_synonyms]: one list per word of the utterance,
    the word itself first. *)
Definition word_tokens (self : Generator) : list (list str) :=
  map (fun word =>
         match _synonymsdict self !! word with
         | Some synonyms => [word] ++ synonyms
         | None => [word]
         end)
      (split (_utterance self)).

(** One pass of the inner loop: the index that [find] returned, and the
    utterance appended to [genlist]. *)
Definition splice (u word : str) (prev : Z) (candidate : str) : Z * str :=
  let start := find u word prev in
  let end_ := start + len word in
  (start, slice_to u start ++ candidate ++ slice_from u end_).

(** The second loop of [add_synonyms], from the cursor [prev] on; every
    list of [tokens] starts with its word, so that [tokens[i][0]] exists. *)
Fixpoint splice_all (u : str) (tokens : list (list str)) (prev : Z) : list (Z * str) :=
  match tokens with
  | [] => []
  | slist :: rest =>
      match slist with
      | [] => splice_all u rest prev
      | word :: _ =>
          map (splice u word prev) slist
            ++ splice_all u rest (find u word prev + len word)
      end
  end.

(** The indices returned by the calls of [find], in the order of the calls. *)
Definition add_synonyms_starts (self : Generator) : list Z :=
  fst <$> splice_all (_utterance self) (word_tokens self) 0.

(** [list(set(genlist))]: the elements of [genlist] without repetition
    (Python leaves their order open). *)
Definition add_synonyms (self : Generator) : list str :=
  remove_dups (snd <$> splice_all (_utterance self) (word_tokens self) 0).

(** The body of the loop over the phrases of one class. *)
Definition phrase_variants (u : str) (plist : list str) (phrase : str) : list str :=
  if contains u phrase
  then (fun alt => replace u phrase alt)
         <$> List.filter (fun alt => negb (bool_decide (alt = phrase)))
                         (take (length plist - 1) plist)
  else [].

Definition add_phrases (self : Generator) : list str :=
  match _phrasebank self with
  | [] => []
  | _ :: _ =>
      plist ← _phrasebank self;
      phrase ← plist;
      phrase_variants (_utterance self) plist phrase
  end.

(** ** [generate] *)

(** [x[i], x[j] = x[j], x[i]] *)
Definition swap {A} (x : list A) (i j : nat) : list A :=
  match x !! i, x !! j with
  | Some a, Some b => <[j := a]> (<[i := b]> x)
  | _, _ => x
  end.

(** [random.shuffle]: for [i] from [len(x) - 1] down to [1], exchange
    [x[i]] and [x[randbelow(i + 1)]]; [draw i] is the number drawn at [i]. *)
Fixpoint shuffle_down {A} (draw : nat -> nat) (i : nat) (x : list A) : list A :=
  match i with
  | O => x
  | S i' => shuffle_down draw i' (swap x i (draw i mod (i + 1))%nat)
  end.

Definition shuffle {A} (draw : nat -> nat) (x : list A) : list A :=
  shuffle_down draw (length x - 1) x.

Definition generate (draw : nat -> nat) (self : Generator) : list str :=
  let generated := add_synonyms self in
  let generated := generated ++ add_phrases self in
  shuffle draw generated.

(** ** A small environment *)

Module Demo.

(** A tagger that knows four words. *)
Definition tag_of (w : str) : str :=
  if bool_decide (w = py "big") then py "ADJ"
  else if bool_decide (w = py "dog") then py "NOUN"
  else if bool_decide (w = py "see") then py "VERB"
  else py "DET".

Definition tagger (text : str) : list (str * str) :=
  map (fun w => (w, tag_of w)) (split text).

Definition wordnet (word pos : str) : list (list str) :=
  if bool_decide ((word, pos) = (py "big", py "a"))
  then [map py ["big"; "large"]; map py ["bad"; "big"]; map py ["big_league"; "Big"]]
  else if bool_decide ((word, pos) = (py "dog", py "n"))
  then [map py ["dog"; "domestic_dog"]]
  else [].

Definition vectors (key : str) : option Np.vec :=
  if bool_decide (key = py "big") then Some [1; 0]%float
  else if bool_decide (key = py "large") then Some [0.5; 0.25]%float
  else if bool_decide (key = py "bad") then Some [0; 1]%float
  else None.

Definition glove : Model := {| get_vector := vectors; truthy := true |}.

Definition env : Env := {| nlp := tagger; synsets := wordnet; wikimodel := glove |}.

(** The object built from a text without any word. *)
Definition blank : Generator :=
  {| _utterance := [];
     _posmap := posmap;
     _model := glove;
     _phrasebank := get_phrases;
     _synonymsdict := ∅ |}.

(** The object built from ["The big dog"]. *)
Definition big_dog : Generator :=
  {| _utterance := py "the big dog";
     _posmap := posmap;
     _model := glove;
     _phrasebank := get_phrases;
     _synonymsdict := {[ py "big" := [py "large"] ]} |}.

(** The object built from a text in which a phrase of the table occurs. *)
Definition phrased (text : string) : Generator :=
  {| _utterance := py text;
     _posmap := posmap;
     _model := glove;
     _phrasebank := get_phrases;
     _synonymsdict := ∅ |}.

End Demo.


(** ** Predicates of the statements *)

(** A run: not empty, and free of separators. *)
Definition is_run (sep : ascii → bool) (w : str) : Prop :=
  w ≠ [] ∧ Forall (λ c, sep c = false) w.

(** The tokens that [preprocess] joins. *)
Definition tokens_of (x : str) : list str :=
  tokenize (sub_digits (sub_tags false (map Char.lower x))).

(** A token of a normalized utterance. *)
Definition normal_token (w : str) : Prop :=
  w ≠ [] ∧ Forall (λ c, Char.normal c = true) w.

(** A character of a normalized utterance. *)
Definition normal_or_space (c : ascii) : Prop := c = Char.space ∨ Char.normal c = true.

(** The words [ws] occur in [u] one after the other, the first one at the
    index [p] or later. *)
Fixpoint ordered (u : str) (ws : list str) (p : nat) : Prop :=
  match ws with
  | [] => True
  | w :: ws' =>
      ∃ pre post,
        u = pre ++ w ++ post ∧ (p ≤ length pre)%nat
        ∧ ordered u ws' (length pre + length w)
  end.

(** [sg] is what one pass of the inner loop yields for the list [slist]:
    an index at which the word of [slist] occurs in [u], and [u] with that
    occurrence replaced by a candidate of [slist]. *)
Definition located (u : str) (slist : list str) (sg : Z * str) : Prop :=
  ∃ word rest candidate pre post,
    slist = word :: rest ∧ candidate ∈ slist ∧ u = pre ++ word ++ post
    ∧ sg = (Z.of_nat (length pre), pre ++ candidate ++ post).

(** What the synonym map promises for an entry [word -> candidates] under
    the embedding model [model]. *)
Definition good_entry (model : Model) (word : str) (candidates : list str) : Prop :=
  candidates ≠ []
  ∧ ∀ c, c ∈ candidates →
      (Char.underscore ∉ c)
      ∧ preprocess c ≠ word
      ∧ (truthy model = true →
         ∃ sim, cosinesim (embed word model) (embed c model) = Ok sim
                ∧ PrimFloat.leb threshold sim = true).

(** What [sep.join] puts before and after an element in the middle:
    [sep.join(l1 + [w] + l2)] is [join_before sep l1 ++ w ++ join_after sep l2]. *)
Definition join_before (sep : str) (l : list str) : str :=
  match l with
  | [] => []
  | _ :: _ => join sep l ++ sep
  end.

Definition join_after (sep : str) (l : list str) : str :=
  match l with
  | [] => []
  | _ :: _ => sep ++ join sep l
  end.

(** * Properties *)

(** ** Characters *)

Module CharFacts.
Import Char.

Ltac by_cases c := destruct c as [[] [] [] [] [] [] [] []]; vm_compute; intuition congruence.

Lemma lower_idem c : lower (lower c) = lower c.
Proof. by_cases c. Qed.

Lemma normal_word c : normal c = true → is_word c = true.
Proof. by_cases c. Qed.

Lemma normal_not_space c : normal c = true → is_space c = false.
Proof. by_cases c. Qed.

Lemma normal_not_digit c : normal c = true → is_digit c = false.
Proof. by_cases c. Qed.

Lemma normal_lower c : normal c = true → lower c = c.
Proof. by_cases c. Qed.

Lemma normal_not_lt c : normal c = true → c ≠ lt.
Proof. by_cases c. Qed.

Lemma normal_intro c :
  is_word c = true → is_digit c = false → lower c = c → normal c = true.
Proof.
  intros Hw Hd Hl. unfold normal. rewrite Hw, Hd. simpl.
  by apply bool_decide_eq_true.
Qed.

End CharFacts.

(** ** Runs *)

Section Runs.

Variable sep : ascii → bool.

Lemma runs_head_not_sep c r : sep c = false → runs sep (c :: r) ≠ [].
Proof.
  intros Hc. simpl. rewrite Hc.
  destruct r as [|c' r']; [done|].
  destruct (sep c'); [done|]. by destruct (runs sep (c' :: r')).
Qed.

(** The first run of a string: what precedes it is made of separators, and
    the runs of the rest are the other runs. *)
Lemma runs_cons_inv s w ws :
  runs sep s = w :: ws →
  ∃ pre post,
    s = pre ++ w ++ post ∧ Forall (λ c, sep c = true) pre ∧ is_run sep w
    ∧ runs sep post = ws
    ∧ match post with [] => True | c :: _ => sep c = true end.
Proof.
  revert w ws. induction s as [|c r IH]; intros w ws; [done|].
  simpl. destruct (sep c) eqn:Hc.
  - intros Hr. destruct (IH _ _ Hr) as (pre & post & -> & Hpre & Hw & Hws & Hpost).
    exists (c :: pre), post. split_and!; auto.
  - destruct r as [|c' r'].
    + intros [= <- <-]. exists [], []. split_and!; auto. split; auto.
    + destruct (sep c') eqn:Hc'.
      * intros [= <- <-]. exists [], (c' :: r'). split_and!; auto. split; auto.
      * destruct (runs sep (c' :: r')) as [|w' ws'] eqn:Hr.
        { by apply runs_head_not_sep in Hr. }
        intros [= <- <-].
        destruct (IH _ _ eq_refl) as (pre & post & Heq & Hpre & [Hne Hw] & Hws & Hpost).
        destruct pre as [|p pre'].
        -- simpl in Heq. exists [], post. rewrite Heq.
           split_and!; auto. split; auto.
        -- inversion Heq; subst. inversion Hpre; subst. congruence.
Qed.

Lemma runs_are_runs s : Forall (is_run sep) (runs sep s).
Proof.
  remember (length s) as n eqn:Hn. revert s Hn.
  induction n as [n IH] using lt_wf_ind. intros s ->.
  destruct (runs sep s) as [|w ws] eqn:Hr; [constructor|].
  destruct (runs_cons_inv _ _ _ Hr) as (pre & post & -> & _ & Hw & <- & _).
  constructor; [done|].
  eapply IH; [|reflexivity].
  destruct Hw as [Hne _]. rewrite !length_app.
  destruct w; [done|]. simpl. lia.
Qed.

(** The characters of the runs are characters of the string. *)
Lemma runs_chars (P : ascii → Prop) s :
  Forall P s → Forall (Forall P) (runs sep s).
Proof.
  remember (length s) as n eqn:Hn. revert s Hn.
  induction n as [n IH] using lt_wf_ind. intros s -> Hs.
  destruct (runs sep s) as [|w ws] eqn:Hr; [constructor|].
  destruct (runs_cons_inv _ _ _ Hr) as (pre & post & -> & _ & [Hne _] & <- & _).
  apply Forall_app in Hs as [_ Hs]. apply Forall_app in Hs as [Hw Hpost].
  constructor; [done|].
  eapply IH; [|reflexivity|done].
  rewrite !length_app. destruct w; [done|]. simpl. lia.
Qed.

(** A run followed by a separator, or by nothing, is the first run. *)
Lemma runs_app w rest :
  is_run sep w →
  match rest with [] => True | c :: _ => sep c = true end →
  runs sep (w ++ rest) = w :: runs sep rest.
Proof.
  intros [Hne Hw] Hrest. induction w as [|c w IH]; [done|].
  inversion Hw as [|? ? Hc Hw']; subst.
  destruct w as [|c' w'].
  - simpl. rewrite Hc. destruct rest as [|d rest']; [done|]. by rewrite Hrest.
  - change ((c :: c' :: w') ++ rest) with (c :: (c' :: w') ++ rest).
    cbn [runs]. rewrite Hc.
    change ((c' :: w') ++ rest) with (c' :: w' ++ rest) at 1.
    inversion Hw' as [|? ? Hc' _]; subst. cbn iota. rewrite Hc'.
    change (c' :: w' ++ rest) with ((c' :: w') ++ rest).
    rewrite IH by done. done.
Qed.

(** Runs joined by one separator are found again. *)
Lemma runs_join c ws :
  sep c = true → Forall (is_run sep) ws → runs sep (join [c] ws) = ws.
Proof.
  intros Hc. induction 1 as [|w ws Hw Hws IH]; [done|].
  destruct ws as [|w' ws'].
  - simpl. rewrite <- (app_nil_r w) at 1. by rewrite runs_app.
  - change (join [c] (w :: w' :: ws')) with (w ++ c :: join [c] (w' :: ws')).
    rewrite runs_app by done. f_equal.
    cbn [runs]. rewrite Hc. done.
Qed.

End Runs.

(** ** The normalizer *)

Section Normalizer.
Import CharFacts.

Lemma sub_tags_Forall (P : ascii → Prop) inside s :
  Forall P s → Forall P (sub_tags inside s).
Proof.
  intros Hs. revert inside. induction Hs as [|c r Hc Hr IH]; intros inside; [constructor|].
  simpl. destruct inside.
  - destruct (decide (c = Char.gt)); apply IH.
  - destruct (bool_decide (c = Char.lt) && closes r)%bool; [apply IH|].
    constructor; [done | apply IH].
Qed.

Lemma sub_tags_id s : Forall (λ c, c ≠ Char.lt) s → sub_tags false s = s.
Proof.
  induction 1 as [|c r Hc Hr IH]; [done|].
  simpl. rewrite bool_decide_eq_false_2 by done. simpl. by rewrite IH.
Qed.

Lemma sub_digits_Forall (P : ascii → Prop) s : Forall P s → Forall P (sub_digits s).
Proof.
  rewrite !Forall_forall. intros Hs c Hc. apply Hs.
  unfold sub_digits in Hc. by apply list_elem_of_filter in Hc as [_ Hc].
Qed.

Lemma sub_digits_no_digit s : Forall (λ c, Char.is_digit c = false) (sub_digits s).
Proof.
  unfold sub_digits. apply Forall_forall. intros c Hc.
  by apply list_elem_of_filter in Hc as [Hc _].
Qed.

Lemma sub_digits_id s : Forall (λ c, Char.is_digit c = false) s → sub_digits s = s.
Proof.
  induction 1 as [|c r Hc Hr IH]; [done|].
  unfold sub_digits in *. rewrite filter_cons_True by done. by rewrite IH.
Qed.

Lemma map_lower_id s : Forall (λ c, Char.lower c = c) s → map Char.lower s = s.
Proof. induction 1 as [|c r Hc Hr IH]; [done|]. simpl. by rewrite Hc, IH. Qed.

Lemma tokens_normal x : Forall normal_token (tokens_of x).
Proof.
  unfold tokens_of, tokenize.
  set (s := sub_digits (sub_tags false (map Char.lower x))).
  assert (Hs : Forall (λ c, Char.is_digit c = false ∧ Char.lower c = c) s).
  { apply Forall_and. split; [apply sub_digits_no_digit|].
    apply sub_digits_Forall, sub_tags_Forall.
    apply Forall_forall. intros c Hc.
    apply list_elem_of_fmap in Hc as (c0 & -> & _). apply lower_idem. }
  pose proof (runs_are_runs (λ c, negb (Char.is_word c)) s) as Hruns.
  pose proof (runs_chars (λ c, negb (Char.is_word c)) _ s Hs) as Hchars.
  pose proof (conj Hruns Hchars) as Hboth. apply Forall_and in Hboth.
  eapply Forall_impl; [exact Hboth|].
  intros w [[Hne Hw] Hc]. split; [done|].
  apply Forall_forall. intros c Hin.
  rewrite Forall_forall in Hw, Hc.
  specialize (Hw c Hin). destruct (Hc c Hin) as [Hd Hl].
  apply normal_intro; [|done..]. by apply negb_false_iff.
Qed.

Lemma join_normal ws :
  Forall normal_token ws → Forall normal_or_space (join (py " ") ws).
Proof.
  induction 1 as [|w ws [_ Hw] Hws IH]; [constructor|].
  assert (Hw' : Forall normal_or_space w).
  { eapply Forall_impl; [exact Hw|]. intros c Hc. by right. }
  destruct ws as [|w' ws']; [done|].
  change (join (py " ") (w :: w' :: ws'))
    with (w ++ Char.space :: join (py " ") (w' :: ws')).
  apply Forall_app. split; [done|]. constructor; [by left | done].
Qed.

Lemma normal_token_word_run w :
  normal_token w → is_run (λ c, negb (Char.is_word c)) w.
Proof.
  intros [Hne Hw]. split; [done|].
  eapply Forall_impl; [exact Hw|]. intros c Hc. simpl.
  by rewrite (normal_word _ Hc).
Qed.

Lemma normal_token_space_run w : normal_token w → is_run Char.is_space w.
Proof.
  intros [Hne Hw]. split; [done|].
  eapply Forall_impl; [exact Hw|]. intros c Hc. by apply normal_not_space.
Qed.

(** Normalized tokens joined by single spaces are left alone. *)
Lemma preprocess_join ws :
  Forall normal_token ws → preprocess (join (py " ") ws) = join (py " ") ws.
Proof.
  intros Hws. pose proof (join_normal ws Hws) as Hj.
  unfold preprocess.
  rewrite map_lower_id.
  2:{ eapply Forall_impl; [exact Hj|]. intros c [->|Hc]; [done | by apply normal_lower]. }
  rewrite sub_tags_id.
  2:{ eapply Forall_impl; [exact Hj|]. intros c [->|Hc]; [done | by apply normal_not_lt]. }
  rewrite sub_digits_id.
  2:{ eapply Forall_impl; [exact Hj|]. intros c [->|Hc]; [done | by apply normal_not_digit]. }
  f_equal. unfold tokenize. apply (runs_join _ Char.space); [done|].
  eapply Forall_impl; [exact Hws|]. apply normal_token_word_run.
Qed.

(** [split] gives back the tokens of a normalized utterance. *)
Lemma split_preprocess x : split (preprocess x) = tokens_of x.
Proof.
  unfold preprocess. fold (tokens_of x). unfold split.
  apply (runs_join _ Char.space); [done|].
  eapply Forall_impl; [apply tokens_normal|]. apply normal_token_space_run.
Qed.

(** A word of a normalized utterance is its own normal form. *)
Lemma preprocess_word x word : word ∈ split (preprocess x) → preprocess word = word.
Proof.
  rewrite split_preprocess. intros Hin.
  pose proof (tokens_normal x) as Hn. rewrite Forall_forall in Hn.
  apply (preprocess_join [word]). constructor; [by apply Hn | constructor].
Qed.

Lemma preprocess_nonempty_words x : preprocess x ≠ [] → split (preprocess x) ≠ [].
Proof.
  rewrite split_preprocess. unfold preprocess. fold (tokens_of x).
  by destruct (tokens_of x).
Qed.

End Normalizer.

(** C7: the normalizer is idempotent: normalizing a normalized string
    (lower case, tags and digit runs removed, word tokens joined by single
    spaces) changes nothing. *)
Theorem preprocess_idempotent (x : str) : preprocess (preprocess x) = preprocess x.
Proof.
  change (preprocess x) with (join (py " ") (tokens_of x)).
  apply preprocess_join, tokens_normal.
Qed.

(** C9, what the code does: one-character tokens are kept.  The normalized
    form of ["I am a cat"] has the tokens ["i"] and ["a"], although the
    docstring of [preprocess] announces that words of fewer than two
    characters are removed. *)
Theorem preprocess_keeps_short_tokens :
  preprocess (py "I am a cat") = py "i am a cat"
  ∧ split (preprocess (py "I am a cat")) = map py ["i"; "am"; "a"; "cat"]
  ∧ Exists (λ token, (length token < 2)%nat) (split (preprocess (py "I am a cat"))).
Proof.
  split_and!; [reflexivity | reflexivity |].
  apply Exists_cons_hd. vm_compute. lia.
Qed.

(** ** Searching and splicing *)

Section Search.

Lemma starts_with_app sub post : starts_with (sub ++ post) sub = true.
Proof. induction sub as [|c sub IH]; [done|]. simpl. by rewrite decide_True. Qed.

Lemma starts_with_inv s sub : starts_with s sub = true → ∃ post, s = sub ++ post.
Proof.
  revert s. induction sub as [|c sub IH]; intros s; [by exists s|].
  destruct s as [|d s]; [done|]. simpl.
  destruct (decide (c = d)) as [->|]; [|done].
  intros H. destruct (IH _ H) as [post ->]. by exists post.
Qed.

Lemma find_at_Some s sub i k :
  find_at s sub i = Some k →
  ∃ pre post, s = pre ++ sub ++ post ∧ k = (i + length pre)%nat.
Proof.
  revert i. induction s as [|c s IH]; intros i; simpl.
  - destruct (starts_with [] sub) eqn:Hs; [|done].
    intros [= <-]. apply starts_with_inv in Hs as [post Hs].
    exists [], post. split; [done | simpl; lia].
  - destruct (starts_with (c :: s) sub) eqn:Hs.
    + intros [= <-]. apply starts_with_inv in Hs as [post Hs].
      exists [], post. split; [done | simpl; lia].
    + intros H. destruct (IH _ H) as (pre & post & -> & ->).
      exists (c :: pre), post. split; [done | simpl; lia].
Qed.

Lemma find_at_occurrence sub pre post i :
  ∃ k, find_at (pre ++ sub ++ post) sub i = Some k ∧ (k ≤ i + length pre)%nat.
Proof.
  revert i. induction pre as [|c pre IH]; intros i.
  - exists i. split; [|lia]. simpl.
    destruct (sub ++ post) eqn:E; simpl; rewrite <- ?E, starts_with_app; done.
  - simpl. destruct (starts_with (c :: pre ++ sub ++ post) sub).
    + exists i. split; [done | lia].
    + destruct (IH (S i)) as (k & Hk & Hle). exists k. split; [done | lia].
Qed.

Lemma find_from (u w : str) (p : nat) :
  (p ≤ length u)%nat →
  find u w (Z.of_nat p)
  = match find_at (drop p u) w p with Some k => Z.of_nat k | None => -1 end.
Proof.
  intros Hp. unfold find, len.
  destruct (Z.of_nat p <? 0) eqn:E1; [lia|].
  destruct (Z.of_nat (length u) <? Z.of_nat p) eqn:E2; [lia|].
  by rewrite Nat2Z.id.
Qed.

Lemma slice_bound_inner n k : (k ≤ n)%nat → slice_bound n (Z.of_nat k) = k.
Proof.
  intros Hk. unfold slice_bound.
  destruct (Z.of_nat k <? 0) eqn:E; lia.
Qed.

(** From a cursor that is not past an occurrence of the word, [find]
    succeeds, at that occurrence or at an earlier one, and the splice
    replaces exactly the occurrence found. *)
Lemma splice_occurrence u w pre post p :
  u = pre ++ w ++ post → (p ≤ length pre)%nat →
  ∃ pre' post',
    u = pre' ++ w ++ post' ∧ (p ≤ length pre' ≤ length pre)%nat
    ∧ find u w (Z.of_nat p) = Z.of_nat (length pre')
    ∧ ∀ candidate,
        splice u w (Z.of_nat p) candidate
        = (Z.of_nat (length pre'), pre' ++ candidate ++ post').
Proof.
  intros Hu Hp.
  assert (Hdrop : drop p u = drop p pre ++ w ++ post).
  { rewrite Hu, drop_app_le by done. done. }
  destruct (find_at_occurrence w (drop p pre) post p) as (k & Hk & Hle).
  rewrite <- Hdrop in Hk. rewrite length_drop in Hle.
  destruct (find_at_Some _ _ _ _ Hk) as (pre2 & post2 & Hsplit & ->).
  assert (Hlen : (p ≤ length u)%nat).
  { rewrite Hu, length_app. lia. }
  assert (Hu' : u = (take p u ++ pre2) ++ w ++ post2).
  { rewrite <- (take_drop p u) at 1. rewrite Hsplit. by rewrite <- app_assoc. }
  assert (Hpre' : length (take p u ++ pre2) = (p + length pre2)%nat).
  { rewrite length_app, length_take. lia. }
  assert (Hfind : find u w (Z.of_nat p) = Z.of_nat (length (take p u ++ pre2))).
  { rewrite find_from, Hk, Hpre' by done. done. }
  exists (take p u ++ pre2), post2. split_and!; [done | lia | lia | done |].
  intros candidate. unfold splice. rewrite Hfind. f_equal.
  unfold slice_to, slice_from, len. rewrite <- Nat2Z.inj_add.
  generalize dependent (take p u ++ pre2). intros pre' -> _ _.
  rewrite !slice_bound_inner by (rewrite !length_app; lia).
  rewrite take_app_length. do 2 f_equal.
  rewrite (app_assoc pre' w post2), <- length_app. apply drop_app_length.
Qed.

Lemma ordered_weaken u ws p p' : (p' ≤ p)%nat → ordered u ws p → ordered u ws p'.
Proof.
  destruct ws as [|w ws]; [done|].
  intros Hp (pre & post & Hu & Hle & Hrest).
  exists pre, post. split_and!; [done | lia | done].
Qed.

(** The runs of a string occur in it one after the other. *)
Lemma runs_ordered sep s :
  ∀ pre, ordered (pre ++ s) (runs sep s) (length pre).
Proof.
  remember (runs sep s) as ws eqn:Hws. revert s Hws.
  induction ws as [|w ws IH]; intros s Hws pre0; [done|].
  symmetry in Hws.
  destruct (runs_cons_inv _ _ _ _ Hws) as (pre & post & -> & _ & _ & Hrest & _).
  exists (pre0 ++ pre), post. split_and!.
  - by rewrite <- app_assoc.
  - rewrite length_app. lia.
  - specialize (IH post (eq_sym Hrest) (pre0 ++ pre ++ w)).
    rewrite !length_app in *. rewrite Nat.add_assoc in IH.
    by rewrite <- !app_assoc in *.
Qed.

Lemma split_ordered u : ordered u (split u) 0.
Proof. apply (runs_ordered Char.is_space u []). Qed.

(** Every pass of the second loop of [add_synonyms] finds its word. *)
Lemma splice_all_located u tokens p :
  ordered u (omap head tokens) p →
  Forall (λ sg, ∃ slist, slist ∈ tokens ∧ located u slist sg)
         (splice_all u tokens (Z.of_nat p)).
Proof.
  revert p. induction tokens as [|slist tokens IH]; intros p Hord; [constructor|].
  destruct slist as [|word rest].
  - simpl in *. eapply Forall_impl; [by apply IH|].
    intros sg (sl & Hin & Hloc). exists sl. split; [by right | done].
  - simpl in Hord. destruct Hord as (pre & post & Hu & Hle & Hord).
    destruct (splice_occurrence u word pre post p Hu Hle)
      as (pre' & post' & Hu' & [Hlo Hhi] & Hfind & Hsplice).
    cbn [splice_all]. apply Forall_app. split.
    + apply Forall_forall. intros sg Hsg.
      apply list_elem_of_fmap in Hsg as (candidate & -> & Hcand).
      exists (word :: rest). split; [by left|].
      exists word, rest, candidate, pre', post'. by rewrite Hsplice.
    + rewrite Hfind. unfold len. rewrite <- Nat2Z.inj_add.
      eapply Forall_impl.
      * apply IH. eapply ordered_weaken; [|exact Hord]. lia.
      * intros sg (sl & Hin & Hloc). exists sl. split; [by right | done].
Qed.

Lemma word_tokens_heads self : omap head (word_tokens self) = split (_utterance self).
Proof.
  unfold word_tokens. induction (split (_utterance self)) as [|w ws IH]; [done|].
  cbn [map].
  destruct (_synonymsdict self !! w);
    (etransitivity; [|exact (f_equal (cons w) IH)]); reflexivity.
Qed.

Lemma add_synonyms_located self :
  Forall (λ sg, ∃ slist, slist ∈ word_tokens self ∧ located (_utterance self) slist sg)
         (splice_all (_utterance self) (word_tokens self) 0).
Proof.
  apply (splice_all_located _ _ 0%nat).
  rewrite word_tokens_heads. apply split_ordered.
Qed.

End Search.

(** C10: in [add_synonyms], every call of [find] for the word of a position,
    from the current cursor, returns an index that is not negative, and the
    splice replaces an occurrence of that word: the splice never starts at
    [-1]. *)
Theorem add_synonyms_find_succeeds (self : Generator) :
  Forall (λ start, 0 ≤ start) (add_synonyms_starts self)
  ∧ Forall (λ sg, ∃ slist, slist ∈ word_tokens self
                           ∧ located (_utterance self) slist sg)
           (splice_all (_utterance self) (word_tokens self) 0).
Proof.
  split; [|apply add_synonyms_located].
  unfold add_synonyms_starts. apply Forall_fmap.
  eapply Forall_impl; [apply add_synonyms_located|].
  intros sg (slist & _ & word & rest & candidate & pre & post & _ & _ & _ & ->).
  simpl. lia.
Qed.

(** ** Construction *)

Lemma init_fields env text model g :
  init env text model = Ok g →
  _utterance g = preprocess text ∧ _posmap g = posmap ∧ _phrasebank g = get_phrases
  ∧ _model g = match model with
               | Some m => if truthy m then m else wikimodel env
               | None => wikimodel env
               end
  ∧ map_words env
      {| _utterance := preprocess text; _posmap := posmap; _model := _model g;
         _phrasebank := get_phrases; _synonymsdict := ∅ |}
      (split (preprocess text)) ∅ = Ok (_synonymsdict g).
Proof.
  unfold init, map_synonyms. cbn [_utterance _posmap _model _phrasebank].
  destruct (map_words _ _ _ _) as [d|e] eqn:Hd; [|done].
  intros [= <-]. by cbn.
Qed.

(** ** The single-word assembler *)

Lemma word_tokens_first self w ws :
  split (_utterance self) = w :: ws →
  ∃ synonyms rest, word_tokens self = (w :: synonyms) :: rest.
Proof.
  unfold word_tokens. intros ->. cbn [map].
  destruct (_synonymsdict self !! w) as [synonyms|]; eauto.
Qed.

Lemma add_synonyms_has_utterance self :
  split (_utterance self) ≠ [] → _utterance self ∈ add_synonyms self.
Proof.
  intros Hne. destruct (split (_utterance self)) as [|w ws] eqn:Hsplit; [done|].
  pose proof (split_ordered (_utterance self)) as Hord. rewrite Hsplit in Hord.
  destruct Hord as (pre & post & Hu & Hle & _).
  destruct (splice_occurrence _ w pre post 0 Hu Hle)
    as (pre' & post' & Hu' & _ & _ & Hsplice).
  destruct (word_tokens_first self w ws Hsplit) as (synonyms & rest & Htok).
  unfold add_synonyms. apply elem_of_remove_dups. rewrite Htok.
  cbn [splice_all]. rewrite fmap_app. apply elem_of_app. left.
  apply list_elem_of_fmap. exists (splice (_utterance self) w 0 w). split.
  - change 0 with (Z.of_nat 0). rewrite Hsplice. simpl. done.
  - apply list_elem_of_fmap. exists w. split; [done | by left].
Qed.

Lemma word_tokens_singletons self :
  _synonymsdict self = ∅ → Forall (λ slist, ∃ w, slist = [w]) (word_tokens self).
Proof.
  intros Hd. unfold word_tokens. apply Forall_forall. intros slist Hin.
  apply list_elem_of_fmap in Hin as (w & -> & _).
  rewrite Hd, lookup_empty. by exists w.
Qed.

Lemma remove_dups_constant {A} `{EqDecision A} (x : A) l :
  l ≠ [] → Forall (λ y, y = x) l → remove_dups l = [x].
Proof.
  intros Hne Hall. induction Hall as [|y l -> Hl IH]; [done|].
  destruct l as [|z l']; [done|].
  simpl in *. specialize (IH ltac:(done)).
  inversion Hl; subst.
  destruct (decide_rel elem_of x (x :: l')) as [_|Hn]; [done|].
  exfalso. apply Hn. by left.
Qed.

Lemma add_synonyms_without_synonyms self :
  _synonymsdict self = ∅ → split (_utterance self) ≠ [] →
  add_synonyms self = [_utterance self].
Proof.
  intros Hd Hne. pose proof (add_synonyms_has_utterance self Hne) as Hin.
  unfold add_synonyms in *. apply elem_of_remove_dups in Hin.
  apply remove_dups_constant.
  - intros E. rewrite E in Hin. by apply elem_of_nil in Hin.
  - apply Forall_fmap.
    eapply Forall_impl; [apply add_synonyms_located|].
    intros sg (slist & Hin' & word & rest & candidate & pre & post
               & -> & Hcand & Hu & ->).
    pose proof (word_tokens_singletons self Hd) as Hsing.
    rewrite Forall_forall in Hsing. destruct (Hsing _ Hin') as [w [= -> ->]].
    apply list_elem_of_singleton in Hcand as ->. simpl. done.
Qed.

(** ** The phrase assembler *)

Lemma add_phrases_without_match self :
  existsb (existsb (contains (_utterance self))) (_phrasebank self) = false →
  add_phrases self = [].
Proof.
  intros Hno. unfold add_phrases.
  destruct (_phrasebank self) as [|p bank] eqn:Hbank; [done|]. rewrite <- Hbank in *.
  clear Hbank p bank.
  induction (_phrasebank self) as [|plist bank IH]; [done|].
  cbn [existsb] in Hno. apply orb_false_iff in Hno as [Hplist Hbank].
  rewrite bind_cons, (IH Hbank), app_nil_r.
  assert (Hall : ∀ l, existsb (contains (_utterance self)) l = false →
                      (l ≫= phrase_variants (_utterance self) plist) = []).
  { induction l as [|phrase l IHl]; [done|].
    cbn [existsb]. intros [Hph Hl]%orb_false_iff.
    rewrite bind_cons, (IHl Hl), app_nil_r.
    unfold phrase_variants. by rewrite Hph. }
  by apply Hall.
Qed.

Lemma shuffle_singleton {A} draw (x : A) : shuffle draw [x] = [x].
Proof. reflexivity. Qed.

(** ** The claims on the assemblers and on [generate] *)

(** C4, as the code has it: for every input whose normalized utterance is
    not empty, the unchanged normalized utterance is one of the outputs of
    [add_synonyms]. *)
Theorem add_synonyms_keeps_utterance env text model g :
  init env text model = Ok g →
  preprocess text ≠ [] →
  preprocess text ∈ add_synonyms g.
Proof.
  intros Hinit Hne. destruct (init_fields _ _ _ _ Hinit) as (Hu & _).
  rewrite <- Hu. apply add_synonyms_has_utterance.
  rewrite Hu. by apply preprocess_nonempty_words.
Qed.

Lemma add_synonyms_keeps_utterance_witness :
  init Demo.env (py "The big dog") None = Ok Demo.big_dog
  ∧ preprocess (py "The big dog") ≠ []
  ∧ preprocess (py "The big dog") ∈ add_synonyms Demo.big_dog.
Proof.
  assert (Hinit : init Demo.env (py "The big dog") None = Ok Demo.big_dog)
    by (vm_compute; reflexivity).
  assert (Hne : preprocess (py "The big dog") ≠ []) by (vm_compute; discriminate).
  split_and!; [exact Hinit | exact Hne |].
  exact (add_synonyms_keeps_utterance Demo.env (py "The big dog") None Demo.big_dog
           Hinit Hne).
Defined.

(** C4, as stated, fails on an input without words: the object built from
    the empty text has no output at all. *)
Lemma add_synonyms_empty_utterance :
  init Demo.env (py "") None = Ok Demo.blank
  ∧ add_synonyms Demo.blank = []
  ∧ _utterance Demo.blank ∉ add_synonyms Demo.blank.
Proof.
  split_and!; [vm_compute; reflexivity | reflexivity |].
  intros H. vm_compute in H. by apply elem_of_nil in H.
Qed.

(** C5, as the code has it: for an input whose normalized utterance is not
    empty, whose synonym map is empty and in which no phrase of the table
    occurs, [generate] returns the normalized utterance and nothing else. *)
Theorem generate_without_alternatives env text model g draw :
  init env text model = Ok g →
  preprocess text ≠ [] →
  _synonymsdict g = ∅ →
  existsb (existsb (contains (_utterance g))) (_phrasebank g) = false →
  generate draw g = [preprocess text].
Proof.
  intros Hinit Hne Hd Hno. destruct (init_fields _ _ _ _ Hinit) as (Hu & _).
  unfold generate.
  rewrite add_phrases_without_match by done.
  rewrite add_synonyms_without_synonyms; [| done |].
  - by rewrite app_nil_r, shuffle_singleton, Hu.
  - rewrite Hu. by apply preprocess_nonempty_words.
Qed.

Lemma generate_without_alternatives_witness :
  init Demo.env (py "That cat!") None = Ok (Demo.phrased "that cat")
  ∧ preprocess (py "That cat!") ≠ []
  ∧ _synonymsdict (Demo.phrased "that cat") = ∅
  ∧ existsb (existsb (contains (_utterance (Demo.phrased "that cat"))))
            (_phrasebank (Demo.phrased "that cat")) = false
  ∧ generate (λ i, i) (Demo.phrased "that cat") = [preprocess (py "That cat!")].
Proof.
  assert (Hinit : init Demo.env (py "That cat!") None = Ok (Demo.phrased "that cat"))
    by (vm_compute; reflexivity).
  assert (Hne : preprocess (py "That cat!") ≠ []) by (vm_compute; discriminate).
  assert (Hno : existsb (existsb (contains (_utterance (Demo.phrased "that cat"))))
                        (_phrasebank (Demo.phrased "that cat")) = false)
    by (vm_compute; reflexivity).
  split_and!; [exact Hinit | exact Hne | reflexivity | exact Hno |].
  exact (generate_without_alternatives Demo.env (py "That cat!") None
           (Demo.phrased "that cat") (λ i, i) Hinit Hne eq_refl Hno).
Defined.

(** C5, as stated, fails on an input without words: the synonym map is
    empty and no phrase occurs, but [generate] returns no entry. *)
Lemma generate_empty_utterance :
  init Demo.env (py "") None = Ok Demo.blank
  ∧ _synonymsdict Demo.blank = ∅
  ∧ existsb (existsb (contains (_utterance Demo.blank))) (_phrasebank Demo.blank) = false
  ∧ generate (λ i, i) Demo.blank = []
  ∧ generate (λ i, i) Demo.blank ≠ [_utterance Demo.blank].
Proof.
  split_and!; [vm_compute; reflexivity | reflexivity | vm_compute; reflexivity
              | vm_compute; reflexivity | vm_compute; discriminate].
Qed.

(** C6: the output of [add_synonyms] has no duplicate, for every object;
    the output of [add_phrases] is returned as it was collected and can
    have duplicates, as it has for an utterance that starts with the phrase
    that the class [signs] lists twice. *)
Theorem add_synonyms_nodup_add_phrases_dup :
  (∀ self, NoDup (add_synonyms self))
  ∧ init Demo.env (py "What are the signs I need surgery?") None
    = Ok (Demo.phrased "what are the signs i need surgery")
  ∧ ¬ NoDup (add_phrases (Demo.phrased "what are the signs i need surgery")).
Proof.
  split_and!.
  - intros self. apply NoDup_remove_dups.
  - vm_compute. reflexivity.
  - intros Hnd.
    assert (Hhead : ∃ rest,
               add_phrases (Demo.phrased "what are the signs i need surgery")
               = py "how do i know i need surgery" :: rest
               ∧ py "how do i know i need surgery" ∈ rest).
    { eexists. split; [vm_compute; reflexivity|].
      do 4 apply list_elem_of_further. apply list_elem_of_here. }
    destruct Hhead as (rest & Heq & Hin). rewrite Heq in Hnd.
    apply NoDup_cons in Hnd as [Hnotin _]. by apply Hnotin.
Qed.

(** C2: on the utterance ["do i need a referral"], with the phrase table of
    the source or with the class [need] alone, [add_phrases] returns the
    five utterances in which ["do i need"] is replaced by the entries of the
    class up to ["will i need"], and no utterance built with the last entry,
    ["will i need to"]. *)
Theorem add_phrases_referral self :
  _utterance self = py "do i need a referral" →
  _phrasebank self = get_phrases ∨ _phrasebank self = [need] →
  add_phrases self
  = (λ alt, replace (py "do i need a referral") (py "do i need") alt)
      <$> map py ["do i need to"; "must i"; "must i have"; "is it required that i";
                  "will i need"]
  ∧ add_phrases self
    = map py ["do i need to a referral"; "must i a referral"; "must i have a referral";
              "is it required that i a referral"; "will i need a referral"]
  ∧ replace (py "do i need a referral") (py "do i need") (py "will i need to")
    ∉ add_phrases self.
Proof.
  intros Hu Hbank.
  assert (Hout : add_phrases self
                 = map py ["do i need to a referral"; "must i a referral";
                           "must i have a referral"; "is it required that i a referral";
                           "will i need a referral"]).
  { unfold add_phrases. rewrite Hu. destruct Hbank as [-> | ->]; vm_compute; reflexivity. }
  split_and!; [by rewrite Hout | exact Hout |].
  rewrite Hout. intros Hin. vm_compute in Hin.
  repeat (apply elem_of_cons in Hin as [Hin | Hin]; [discriminate Hin|]).
  by apply elem_of_nil in Hin.
Qed.

Lemma add_phrases_referral_witness :
  init Demo.env (py "Do I need a referral?") None
  = Ok (Demo.phrased "do i need a referral")
  ∧ add_phrases (Demo.phrased "do i need a referral")
    = map py ["do i need to a referral"; "must i a referral"; "must i have a referral";
              "is it required that i a referral"; "will i need a referral"].
Proof.
  split; [vm_compute; reflexivity|].
  exact (proj1 (proj2 (add_phrases_referral (Demo.phrased "do i need a referral")
                         eq_refl (or_introl eq_refl)))).
Defined.

(** ** Part-of-speech resolution *)

(** C8, as the code has it: [get_pos] raises exactly when the stored
    utterance is empty, or the word is empty, or the normalized word does
    not occur in the stored utterance. *)
Theorem get_pos_raises_iff env self word :
  raises (get_pos env self word)
  ↔ _utterance self = [] ∨ word = []
    ∨ contains (_utterance self) (preprocess word) = false.
Proof.
  unfold get_pos.
  destruct (decide (_utterance self = [])) as [Hu|Hu].
  { rewrite (bool_decide_eq_true_2 _ Hu). simpl. tauto. }
  rewrite (bool_decide_eq_false_2 _ Hu).
  destruct (decide (word = [])) as [Hw|Hw].
  { rewrite (bool_decide_eq_true_2 _ Hw). simpl. tauto. }
  rewrite (bool_decide_eq_false_2 _ Hw). cbn [orb].
  destruct (contains (_utterance self) (preprocess word)); simpl.
  - split; [done|]. intros [?|[?|?]]; done.
  - tauto.
Qed.

(** C8, as stated, fails when the stored utterance is empty: the word ["!"]
    is not empty and its normal form, the empty string, occurs in the
    utterance, but the call raises. *)
Lemma get_pos_empty_utterance :
  init Demo.env (py "") None = Ok Demo.blank
  ∧ ¬ (raises (get_pos Demo.env Demo.blank (py "!"))
       ↔ py "!" = []
         ∨ contains (_utterance Demo.blank) (preprocess (py "!")) = false).
Proof.
  split; [vm_compute; reflexivity|].
  intros [Hraise _].
  destruct (Hraise I) as [Hw | Hc]; [discriminate Hw | vm_compute in Hc; discriminate Hc].
Qed.

(** ** The synonym map *)

Section SynonymMap.

Variable env : Env.

Lemma split_on_nonempty ch s : split_on ch s ≠ [].
Proof.
  destruct s as [|c r]; [done|]. simpl.
  destruct (decide (c = ch)); [done|]. by destruct (split_on ch r).
Qed.

Lemma split_on_single ch s : length (split_on ch s) = 1%nat → ch ∉ s.
Proof.
  induction s as [|c r IH]; [intros _; apply not_elem_of_nil|].
  simpl. destruct (decide (c = ch)) as [->|Hne].
  - simpl. pose proof (split_on_nonempty ch r).
    destruct (split_on ch r); [done | simpl; lia].
  - destruct (split_on ch r) as [|w ws] eqn:E; [by apply split_on_nonempty in E|].
    simpl in *. intros Hlen Hin.
    apply elem_of_cons in Hin as [->|Hin]; [done|]. by apply IH.
Qed.

Lemma dict_set_elem {V} (d : list (str * V)) key value k v :
  (k, v) ∈ dict_set d key value → (k, v) ∈ d ∨ (k, v) = (key, value).
Proof.
  induction d as [|[k0 v0] d IH]; simpl.
  - intros ->%list_elem_of_singleton. by right.
  - destruct (decide (k0 = key)) as [->|Hne].
    + intros [->|Hin]%elem_of_cons; [by right|]. left. by right.
    + intros [->|Hin]%elem_of_cons; [left; by left|].
      destruct (IH Hin) as [?|?]; [left; by right | by right].
Qed.

(** A score of the dictionary is an initial score, or the cosine
    similarity of the reference and of the embedding of its key. *)
Lemma score_all_elem ref model synonyms sims out :
  score_all ref model synonyms sims = Ok out →
  ∀ s x, (s, x) ∈ out → (s, x) ∈ sims ∨ cosinesim ref (embed s model) = Ok x.
Proof.
  revert sims. induction synonyms as [|s0 rest IH]; intros sims; simpl.
  - intros [= <-] s x Hin. by left.
  - destruct (Np.any (embed s0 model)).
    + destruct (cosinesim ref (embed s0 model)) as [sim|e] eqn:Hsim; [|done].
      simpl. intros Hout s x Hin.
      destruct (IH _ Hout s x Hin) as [Hd|Hc]; [|by right].
      apply dict_set_elem in Hd as [Hd|[= -> ->]]; [by left | by right].
    + apply IH.
Qed.

(** With a model, what [get_synonyms] returns is the word itself or has a
    score that reaches the threshold. *)
Lemma get_synonyms_scored self word synonyms :
  get_synonyms env self word = Ok (Some synonyms) →
  truthy (_model self) = true →
  ∀ c, c ∈ synonyms →
    c = word
    ∨ ∃ sim, cosinesim (embed word (_model self)) (embed c (_model self)) = Ok sim
             ∧ PrimFloat.leb threshold sim = true.
Proof.
  unfold get_synonyms. intros Hget Htruthy.
  destruct (get_pos env self (preprocess word)) as [[pos|]|e]; simpl in Hget; [|done..].
  destruct (bool_decide (pos ∈ supported_pos)); [|done].
  destruct (_posmap self !! pos) as [p|]; [|done].
  rewrite Htruthy in Hget. simpl in Hget.
  destruct (get_similarities _ _ _) as [sims|e] eqn:Hsims; [|done].
  simpl in Hget. injection Hget as <-.
  intros c Hc. apply list_elem_of_fmap in Hc as ([s x] & -> & Hin).
  apply list_elem_of_In, filter_In in Hin as [Hin Hle].
  apply list_elem_of_In in Hin. simpl in *.
  unfold get_similarities in Hsims.
  destruct (score_all_elem _ _ _ _ _ Hsims s x Hin) as [Hd|Hcos].
  - apply list_elem_of_singleton in Hd as [= -> ->]. by left.
  - right. by exists x.
Qed.

Lemma keep_synonym_true word synonym :
  keep_synonym word synonym = true →
  (Char.underscore ∉ synonym) ∧ preprocess synonym ≠ word.
Proof.
  unfold keep_synonym. intros [Hlen Hne]%andb_true_iff.
  apply Nat.eqb_eq in Hlen. apply negb_true_iff, bool_decide_eq_false in Hne.
  split; [by apply split_on_single | done].
Qed.

(** The loop of [map_synonyms] keeps the promise of the entries. *)
Lemma map_words_good self words d d' :
  Forall (λ w, preprocess w = w) words →
  (∀ word cs, d !! word = Some cs → good_entry (_model self) word cs) →
  map_words env self words d = Ok d' →
  ∀ word cs, d' !! word = Some cs → good_entry (_model self) word cs.
Proof.
  intros Hwords. revert d. induction Hwords as [|w words Hw _ IH]; intros d Hd; simpl.
  - by intros [= <-].
  - destruct (get_synonyms env self w) as [synonyms|e] eqn:Hget; [|done].
    cbn [bind].
    destruct synonyms as [[|x l]|]; cbn [nonempty fmap option_fmap option_map];
      [by apply IH | | by apply IH].
    destruct (List.filter (keep_synonym w) (x :: l)) as [|y kept] eqn:Hkept;
      cbn [nonempty default]; [by apply IH|].
    apply IH. intros word cs.
    destruct (decide (w = word)) as [<-|Hne].
    + rewrite lookup_insert_eq. intros [= <-]. split; [done|].
      intros c Hc. rewrite <- Hkept in Hc.
      apply list_elem_of_In, filter_In in Hc as [Hc Hkeep].
      apply list_elem_of_In in Hc.
      destruct (keep_synonym_true _ _ Hkeep) as [Hsingle Hdiff].
      split_and!; [done..|]. intros Htruthy.
      destruct (get_synonyms_scored _ _ _ Hget Htruthy c Hc) as [->|Hsim]; [|done].
      congruence.
    + rewrite lookup_insert_ne by done. apply Hd.
Qed.

End SynonymMap.

(** C3: in the synonym map of a constructed object, every word has at least
    one candidate, and every candidate is free of the separator [_], has a
    normal form different from the word and, when the object has an
    embedding model, has a cosine similarity with the word of at least
    [0.70]. *)
Theorem synonym_map_invariant env text model g :
  init env text model = Ok g →
  ∀ word candidates,
    _synonymsdict g !! word = Some candidates →
    candidates ≠ []
    ∧ ∀ c, c ∈ candidates →
        (Char.underscore ∉ c)
        ∧ preprocess c ≠ word
        ∧ (truthy (_model g) = true →
           ∃ sim, cosinesim (embed word (_model g)) (embed c (_model g)) = Ok sim
                  ∧ PrimFloat.leb threshold sim = true).
Proof.
  intros Hinit word candidates Hlookup.
  destruct (init_fields _ _ _ _ Hinit) as (_ & _ & _ & _ & Hmap).
  eapply (map_words_good env _ _ ∅ _ _ _ Hmap word candidates Hlookup).
  Unshelve.
  - apply Forall_forall. intros w Hw. by apply (preprocess_word text).
  - intros w cs Hw. by rewrite lookup_empty in Hw.
Qed.

Lemma synonym_map_invariant_witness :
  init Demo.env (py "The big dog") None = Ok Demo.big_dog
  ∧ _synonymsdict Demo.big_dog !! py "big" = Some [py "large"]
  ∧ ∀ c, c ∈ [py "large"] →
      (Char.underscore ∉ c)
      ∧ preprocess c ≠ py "big"
      ∧ (truthy (_model Demo.big_dog) = true →
         ∃ sim, cosinesim (embed (py "big") (_model Demo.big_dog))
                          (embed c (_model Demo.big_dog)) = Ok sim
                ∧ PrimFloat.leb threshold sim = true).
Proof.
  assert (Hinit : init Demo.env (py "The big dog") None = Ok Demo.big_dog)
    by (vm_compute; reflexivity).
  assert (Hlookup : _synonymsdict Demo.big_dog !! py "big" = Some [py "large"])
    by (vm_compute; reflexivity).
  split_and!; [exact Hinit | exact Hlookup |].
  exact (proj2 (synonym_map_invariant Demo.env (py "The big dog") None Demo.big_dog
                  Hinit (py "big") [py "large"] Hlookup)).
Defined.

(** ** The default model *)

(** Without a model handle the object takes the module-level model. *)
Lemma init_default_model env text g :
  init env text None = Ok g → _model g = wikimodel env.
Proof. intros Hinit. by destruct (init_fields _ _ _ _ Hinit) as (_ & _ & _ & -> & _). Qed.

(** When the module-level model is truthy, so is the model of every
    constructed object: the branch of [get_synonyms] that returns the
    unfiltered set is not taken. *)
Lemma init_model_truthy env text model g :
  truthy (wikimodel env) = true → init env text model = Ok g → truthy (_model g) = true.
Proof.
  intros Hwiki Hinit. destruct (init_fields _ _ _ _ Hinit) as (_ & _ & _ & -> & _).
  destruct model as [m|]; [|done]. by destruct (truthy m) eqn:Hm.
Qed.

(** C1, what the code does: an object built without a model handle filters
    all the same, with the module-level model.  For ["The big dog"],
    [get_synonyms] returns for ["big"] the word and ["large"] only: the
    lexical synonyms ["bad"] (similarity below the threshold) and
    ["big_league"] (unknown to the model) are dropped, although the class
    docstring announces that synonyms are not filtered when no model is
    given. *)
Theorem no_model_still_filters :
  init Demo.env (py "The big dog") None = Ok Demo.big_dog
  ∧ _model Demo.big_dog = wikimodel Demo.env
  ∧ get_synonyms Demo.env Demo.big_dog (py "big") = Ok (Some (map py ["big"; "large"]))
  ∧ py "bad" ∈ concat (synsets Demo.env (py "big") (py "a"))
  ∧ py "big_league" ∈ concat (synsets Demo.env (py "big") (py "a"))
  ∧ cosinesim (embed (py "big") (wikimodel Demo.env))
              (embed (py "bad") (wikimodel Demo.env)) = Ok 0%float.
Proof.
  split_and!; try (vm_compute; reflexivity).
  - vm_compute. do 2 apply list_elem_of_further. apply list_elem_of_here.
  - vm_compute. do 4 apply list_elem_of_further. apply list_elem_of_here.
Qed.

(** * Further properties *)

(** ** The shuffle *)

Lemma swap_Permutation {A} (x : list A) i j : swap x i j ≡ₚ x.
Proof.
  unfold swap. destruct (x !! i) as [a|] eqn:Hi; [|done].
  destruct (x !! j) as [b|] eqn:Hj; [|done].
  pose proof (lookup_lt_Some _ _ _ Hi) as Hlti.
  pose proof (lookup_lt_Some _ _ _ Hj) as Hltj.
  apply Permutation_inj. split; [by rewrite !length_insert|].
  exists (λ k, if decide (k = i) then j else if decide (k = j) then i else k). split.
  - intros k1 k2. repeat case_decide; congruence.
  - intros k. destruct (decide (k = j)) as [->|Hkj].
    + rewrite list_lookup_insert_eq by (by rewrite length_insert).
      case_decide; congruence.
    + rewrite list_lookup_insert_ne by done.
      destruct (decide (k = i)) as [->|Hki].
      * by rewrite list_lookup_insert_eq.
      * by rewrite list_lookup_insert_ne.
Qed.

Lemma shuffle_Permutation {A} draw (x : list A) : shuffle draw x ≡ₚ x.
Proof.
  unfold shuffle. generalize (length x - 1)%nat. intros i. revert x.
  induction i as [|i IH]; intros x; [done|].
  cbn [shuffle_down]. by rewrite IH, swap_Permutation.
Qed.

(** X1: whatever the random draws, [generate] returns a rearrangement of
    the outputs of [add_synonyms] followed by those of [add_phrases]:
    nothing is lost, added or merged across the two lists. *)
Theorem generate_Permutation draw (self : Generator) :
  generate draw self ≡ₚ add_synonyms self ++ add_phrases self.
Proof. unfold generate. apply shuffle_Permutation. Qed.

(** ** The normalized utterance *)

Lemma normal_charset c :
  Char.normal c = true → c = Char.underscore ∨ Char.between 97 122 c = true.
Proof. CharFacts.by_cases c. Qed.

Lemma upper_not_normal c : Char.is_upper c = true → Char.normal c = false ∧ c ≠ Char.space.
Proof. CharFacts.by_cases c. Qed.

Lemma preprocess_normal x : Forall normal_or_space (preprocess x).
Proof.
  change (preprocess x) with (join (py " ") (tokens_of x)).
  apply join_normal, tokens_normal.
Qed.


(** X3: splitting the normalized utterance at white space and joining the
    words with single spaces gives the normalized utterance back: it has no
    leading, trailing or doubled space, and its words are the tokens that
    the tokenizer found. *)
Theorem preprocess_split_join (x : str) :
  join (py " ") (split (preprocess x)) = preprocess x
  ∧ split (preprocess x) = tokens_of x.
Proof. split; [|apply split_preprocess]. by rewrite split_preprocess. Qed.

Lemma contains_chars s sub : contains s sub = true → ∀ c, c ∈ sub → c ∈ s.
Proof.
  unfold contains. destruct (find_at s sub 0) as [k|] eqn:Hfind; [|done].
  intros _ c Hc. destruct (find_at_Some _ _ _ _ Hfind) as (pre & post & -> & _).
  rewrite !elem_of_app. auto.
Qed.

Lemma contains_occurrence pre sub post : contains (pre ++ sub ++ post) sub = true.
Proof.
  unfold contains.
  by destruct (find_at_occurrence sub pre post 0) as (k & -> & _).
Qed.

(** X4: a phrase of the table with an upper-case letter never matches the
    utterance of a constructed object, which is in lower case: the loop of
    [add_phrases] yields nothing for it. *)
Theorem uppercase_phrase_never_matches env text model g plist phrase :
  init env text model = Ok g →
  Exists (λ c, Char.is_upper c = true) phrase →
  contains (_utterance g) phrase = false
  ∧ phrase_variants (_utterance g) plist phrase = [].
Proof.
  intros Hinit Hup. destruct (init_fields _ _ _ _ Hinit) as (Hu & _).
  assert (Hno : contains (_utterance g) phrase = false).
  { destruct (contains (_utterance g) phrase) eqn:Hc; [|done]. exfalso.
    apply Exists_exists in Hup as (c & Hin & Hc').
    pose proof (contains_chars _ _ Hc c Hin) as Hcu. rewrite Hu in Hcu.
    pose proof (preprocess_normal text) as Hn. rewrite Forall_forall in Hn.
    destruct (upper_not_normal c Hc') as [Hnot Hsp].
    destruct (Hn c Hcu) as [->|Hnorm]; [done | congruence]. }
  split; [done|]. unfold phrase_variants. by rewrite Hno.
Qed.

Lemma uppercase_phrase_never_matches_witness :
  init Demo.env (py "When will I get my results?") None
  = Ok (Demo.phrased "when will i get my results")
  ∧ py "when will I get" ∈ timing
  ∧ contains (_utterance (Demo.phrased "when will i get my results"))
             (py "when will I get") = false
  ∧ phrase_variants (_utterance (Demo.phrased "when will i get my results"))
                    timing (py "when will I get") = [].
Proof.
  assert (Hinit : init Demo.env (py "When will I get my results?") None
                  = Ok (Demo.phrased "when will i get my results"))
    by (vm_compute; reflexivity).
  split_and!; [exact Hinit | apply list_elem_of_here |..];
    apply (uppercase_phrase_never_matches Demo.env _ None _ timing (py "when will I get")
             Hinit);
    do 10 apply Exists_cons_tl; apply Exists_cons_hd; reflexivity.
Defined.

(** ** The similarity dictionary *)

Lemma cosinesim_Ok_iff v1 v2 :
  (∃ sim, cosinesim v1 v2 = Ok sim) ↔ length v1 = length v2.
Proof.
  unfold cosinesim, Np.dot, Np.div_scalar. rewrite length_map.
  destruct (Nat.eqb_spec (length v1) (length v2)) as [Heq|Hne].
  - split; [done | eauto].
  - split; [by intros [sim ?] | done].
Qed.

Lemma score_all_raises ref model synonyms sims :
  raises (score_all ref model synonyms sims)
  ↔ Exists (λ s, Np.any (embed s model) = true
                 ∧ length (embed s model) ≠ length ref) synonyms.
Proof.
  revert sims. induction synonyms as [|s rest IH]; intros sims; simpl.
  - split; [done | by intros ?%Exists_nil].
  - rewrite Exists_cons. destruct (Np.any (embed s model)) eqn:Hany.
    + destruct (cosinesim ref (embed s model)) as [sim|e] eqn:Hsim; simpl.
      * rewrite IH. split; [by right|]. intros [[_ Hne]|?]; [|done].
        exfalso. apply Hne. symmetry. apply cosinesim_Ok_iff. eauto.
      * split; [|done]. intros _. left. split; [done|]. intros Heq.
        symmetry in Heq. apply cosinesim_Ok_iff in Heq as [sim' ?]. congruence.
    + rewrite IH. split; [by right|]. by intros [[? _]|?].
Qed.

(** X5: [get_similarities] raises exactly when some synonym has an
    embedding with a non-zero component whose length differs from that of
    the embedding of the word; in particular when the model does not know
    the word (its embedding is then the empty array) but knows a synonym. *)
Theorem get_similarities_raises_iff word synonyms model :
  raises (get_similarities word synonyms model)
  ↔ ∃ s, s ∈ synonyms ∧ Np.any (embed s model) = true
         ∧ length (embed s model) ≠ length (embed word model).
Proof.
  unfold get_similarities. rewrite score_all_raises, Exists_exists. naive_solver.
Qed.

Lemma dict_set_keys {V} (d : list (str * V)) key value :
  (dict_set d key value).*1
  = if decide (key ∈ d.*1) then d.*1 else d.*1 ++ [key].
Proof.
  induction d as [|[k v] d IH]; [done|]. cbn [dict_set].
  destruct (decide (k = key)) as [->|Hne]; rewrite !fmap_cons; cbn [fst].
  - rewrite decide_True by apply list_elem_of_here. done.
  - rewrite IH. destruct (decide (key ∈ d.*1)) as [Hin|Hnin].
    + rewrite decide_True by (by apply list_elem_of_further). done.
    + rewrite decide_False; [done|]. intros [?|?]%elem_of_cons; congruence.
Qed.

Lemma score_all_keys ref model synonyms sims out :
  score_all ref model synonyms sims = Ok out →
  (NoDup sims.*1 → NoDup out.*1)
  ∧ (∃ more, out.*1 = sims.*1 ++ more)
  ∧ ∀ s, s ∈ out.*1
         ↔ s ∈ sims.*1 ∨ (s ∈ synonyms ∧ Np.any (embed s model) = true).
Proof.
  revert sims. induction synonyms as [|s0 rest IH]; intros sims; simpl.
  - intros [= <-]. split_and!; [done | exists []; by rewrite app_nil_r|].
    intros s. split; [by left|]. intros [?|[?%elem_of_nil _]]; done.
  - destruct (Np.any (embed s0 model)) eqn:Hany.
    + destruct (cosinesim ref (embed s0 model)) as [sim|e]; [|done]. simpl.
      intros Hout. destruct (IH _ Hout) as (Hnd & [more Hpre] & Hmem).
      rewrite dict_set_keys in Hnd, Hpre, Hmem. split_and!.
      * intros Hsims. apply Hnd. case_decide; [done|].
        apply NoDup_app. split_and!; [done | | apply NoDup_singleton].
        intros k Hk ->%list_elem_of_singleton. done.
      * case_decide; [by exists more|]. exists ([s0] ++ more).
        by rewrite Hpre, <- app_assoc.
      * intros s. rewrite Hmem, elem_of_cons. case_decide.
        -- split; [intros [?|[? ?]]; eauto|].
           intros [?|[[->|?] ?]]; eauto.
        -- rewrite elem_of_app, list_elem_of_singleton.
           split; [intros [[? | ->]|[? ?]]; eauto|].
           intros [?|[[->|?] ?]]; eauto.
    + intros Hout. destruct (IH _ Hout) as (Hnd & Hpre & Hmem).
      split_and!; [done..|].
      intros s. rewrite Hmem, elem_of_cons.
      split; [intros [?|[? ?]]; eauto|].
      intros [?|[[->|?] ?]]; eauto. congruence.
Qed.

Lemma get_similarities_keys_aux word synonyms model sims :
  get_similarities word synonyms model = Ok sims →
  ∀ s, s ∈ sims.*1 ↔ s = word ∨ (s ∈ synonyms ∧ Np.any (embed s model) = true).
Proof.
  unfold get_similarities. intros Hout s.
  destruct (score_all_keys _ _ _ _ _ Hout) as (_ & _ & Hmem).
  rewrite Hmem. simpl. by rewrite list_elem_of_singleton.
Qed.

(** X6: when [get_similarities] returns, the dictionary starts with the
    word, no key is there twice, and the keys are the word and those
    synonyms whose embedding has a non-zero component: a synonym that the
    model does not know gets no score. *)
Theorem get_similarities_keys word synonyms model sims :
  get_similarities word synonyms model = Ok sims →
  NoDup sims.*1
  ∧ head sims.*1 = Some word
  ∧ (∀ s, s ∈ sims.*1 ↔ s = word ∨ (s ∈ synonyms ∧ Np.any (embed s model) = true))
  ∧ ∀ s, s ∈ synonyms → s ≠ word → get_vector model s = None → s ∉ sims.*1.
Proof.
  unfold get_similarities. intros Hout.
  destruct (score_all_keys _ _ _ _ _ Hout) as (Hnd & [more Hpre] & Hmem).
  assert (Hkeys : ∀ s, s ∈ sims.*1
                       ↔ s = word ∨ (s ∈ synonyms ∧ Np.any (embed s model) = true)).
  { intros s. rewrite Hmem. simpl. by rewrite list_elem_of_singleton. }
  split_and!.
  - apply Hnd. simpl. apply NoDup_singleton.
  - by rewrite Hpre.
  - exact Hkeys.
  - intros s _ Hne Hvec [?|[_ Hany]]%Hkeys; [done|].
    unfold embed in Hany. by rewrite Hvec in Hany.
Qed.

Lemma get_similarities_keys_witness :
  get_similarities (py "big") (map py ["big"; "large"; "big_league"]) Demo.glove
  = Ok [(py "big", 1%float); (py "large", 0x1.c9f25c5bfedd9p-1%float)]
  ∧ py "big_league" ∉ [py "big"; py "large"].
Proof.
  assert (Hout : get_similarities (py "big") (map py ["big"; "large"; "big_league"])
                   Demo.glove
                 = Ok [(py "big", 1%float); (py "large", 0x1.c9f25c5bfedd9p-1%float)])
    by (vm_compute; reflexivity).
  split; [exact Hout|].
  apply (proj2 (proj2 (proj2 (get_similarities_keys _ _ _ _ Hout))) (py "big_league")).
  - do 2 apply list_elem_of_further. apply list_elem_of_here.
  - discriminate.
  - reflexivity.
Defined.

(** ** Construction, once more *)

Section Construction.

Variable env : Env.

Lemma runs_occur sep s w : w ∈ runs sep s → ∃ pre post, s = pre ++ w ++ post.
Proof.
  remember (length s) as n eqn:Hn. revert s Hn.
  induction n as [n IH] using lt_wf_ind. intros s -> Hin.
  destruct (runs sep s) as [|w0 ws] eqn:Hr; [by apply elem_of_nil in Hin|].
  destruct (runs_cons_inv _ _ _ _ Hr) as (pre & post & -> & _ & [Hne _] & <- & _).
  apply elem_of_cons in Hin as [->|Hin]; [by exists pre, post|].
  destruct (IH (length post)) with (s := post) as (pre' & post' & ->); [|done..|].
  - rewrite !length_app. destruct w0; [done|]. simpl. lia.
  - exists (pre ++ w0 ++ pre'), post'. by rewrite <- !app_assoc.
Qed.

Lemma get_pos_same_utterance self1 self2 word :
  _utterance self1 = _utterance self2 → get_pos env self1 word = get_pos env self2 word.
Proof. unfold get_pos. by intros ->. Qed.

(** For a word of a normalized utterance both guards of [get_pos] pass. *)
Lemma get_pos_word self text word :
  _utterance self = preprocess text → word ∈ split (_utterance self) →
  get_pos env self (preprocess word)
  = Ok (snd <$> List.find (λ w, bool_decide (fst w = word)) (nlp env (_utterance self))).
Proof.
  intros Hu Hin.
  assert (Hword : preprocess word = word).
  { rewrite Hu in Hin. by apply (preprocess_word text). }
  pose proof (runs_are_runs Char.is_space (_utterance self)) as Hruns.
  rewrite Forall_forall in Hruns. destruct (Hruns _ Hin) as [Hne _].
  destruct (runs_occur _ _ _ Hin) as (pre & post & Hsplit).
  unfold get_pos. rewrite !Hword.
  rewrite (bool_decide_eq_false_2 (word = [])) by done.
  rewrite bool_decide_eq_false_2.
  2:{ rewrite Hsplit. destruct pre; [destruct word|]; done. }
  cbn [orb]. rewrite Hsplit at 1. by rewrite contains_occurrence.
Qed.

Lemma posmap_supported pos : pos ∈ supported_pos → is_Some (posmap !! pos).
Proof.
  unfold supported_pos. cbn [map].
  rewrite !elem_of_cons, elem_of_nil.
  intros [->|[->|[->|[->|[->|[->|[]]]]]]]; vm_compute; eauto.
Qed.

Lemma score_all_Raise ref model synonyms sims e :
  score_all ref model synonyms sims = Raise e → e = ValueError "shapes not aligned".
Proof.
  revert sims. induction synonyms as [|s rest IH]; intros sims; simpl; [done|].
  destruct (Np.any (embed s model)); [|apply IH].
  unfold cosinesim at 1, Np.dot.
  destruct (Nat.eqb _ _); simpl; [apply IH | congruence].
Qed.

Lemma get_synonyms_Raise self word e :
  _posmap self = posmap →
  get_synonyms env self word = Raise e →
  raises (get_pos env self (preprocess word))
  ∨ (e = ValueError "shapes not aligned"
     ∧ ∃ synonyms, raises (get_similarities word synonyms (_model self))).
Proof.
  unfold get_synonyms. intros Hposmap.
  destruct (get_pos env self (preprocess word)) as [[pos|]|e0]; simpl; [|done|by left].
  destruct (bool_decide (pos ∈ supported_pos)) eqn:Hpos; [|done].
  apply bool_decide_eq_true in Hpos. rewrite Hposmap.
  destruct (posmap_supported pos Hpos) as [p ->].
  destruct (truthy (_model self)); simpl; [|done].
  destruct (get_similarities _ _ _) as [sims|e1] eqn:Hsims; simpl; [done|].
  intros [= <-]. right. split; [by apply score_all_Raise in Hsims|].
  eexists. by rewrite Hsims.
Qed.

(** What [get_synonyms] returns is the word itself or a lemma of a synset
    of the word under the code of its part of speech. *)
Lemma get_synonyms_Some self word raw :
  get_synonyms env self word = Ok (Some raw) →
  ∃ pos p,
    get_pos env self (preprocess word) = Ok (Some pos)
    ∧ pos ∈ supported_pos ∧ _posmap self !! pos = Some p
    ∧ ∀ c, c ∈ raw →
        c = word
        ∨ (1 < len word ∧ ∃ synset, synset ∈ synsets env word p ∧ c ∈ synset).
Proof.
  unfold get_synonyms.
  destruct (get_pos env self (preprocess word)) as [[pos|]|e0]; simpl; [|done..].
  destruct (bool_decide (pos ∈ supported_pos)) eqn:Hpos; [|done].
  apply bool_decide_eq_true in Hpos.
  destruct (_posmap self !! pos) as [p|] eqn:Hp; [|done].
  set (lexical := remove_dups _).
  assert (Hlex : ∀ c, c ∈ lexical →
                      1 < len word ∧ ∃ synset, synset ∈ synsets env word p ∧ c ∈ synset).
  { intros c Hc. subst lexical. apply (proj1 (elem_of_remove_dups _ _)) in Hc.
    apply list_elem_of_bind in Hc as (synset & Hc & Hsynset).
    apply list_elem_of_bind in Hc as (synonym & Hc & Hsynonym).
    destruct (bool_decide (1 < len word)) eqn:Hlen; [|by apply elem_of_nil in Hc].
    apply bool_decide_eq_true in Hlen.
    apply list_elem_of_singleton in Hc as ->. split; [exact Hlen|].
    exists synset. by split. }
  intros Hget. exists pos, p. split_and!; [done..|].
  destruct (truthy (_model self)); simpl in Hget.
  - destruct (get_similarities _ _ _) as [sims|e1] eqn:Hsims; [|done].
    simpl in Hget. injection Hget as <-. intros c Hc.
    apply list_elem_of_fmap in Hc as (kv & -> & Hin).
    apply list_elem_of_In, filter_In in Hin as [Hin _]. apply list_elem_of_In in Hin.
    destruct (get_similarities_keys_aux _ _ _ _ Hsims (fst kv)) as [Hkey _].
    destruct Hkey as [?|[Hsyn _]]; [apply list_elem_of_fmap; eauto | by left |].
    right. by apply Hlex.
  - injection Hget as <-. intros c Hc. right. by apply Hlex.
Qed.

Lemma map_words_entry self words d d' :
  map_words env self words d = Ok d' →
  ∀ word cs, d' !! word = Some cs →
    d !! word = Some cs
    ∨ (word ∈ words ∧ cs ≠ []
       ∧ ∃ raw, get_synonyms env self word = Ok (Some raw)
                ∧ cs = List.filter (keep_synonym word) raw).
Proof.
  revert d. induction words as [|w words IH]; intros d; simpl.
  - intros [= <-]. by left.
  - destruct (get_synonyms env self w) as [synonyms|e] eqn:Hget; [|done]. cbn [bind].
    assert (Hskip : map_words env self words d = Ok d' →
                    ∀ word cs, d' !! word = Some cs →
                      d !! word = Some cs
                      ∨ (word ∈ w :: words ∧ cs ≠ []
                         ∧ ∃ raw, get_synonyms env self word = Ok (Some raw)
                                  ∧ cs = List.filter (keep_synonym word) raw)).
    { intros Hmap word cs Hcs.
      destruct (IH _ Hmap word cs Hcs) as [?|(? & ? & ?)]; [by left|].
      right. split_and!; [by right | done..]. }
    destruct synonyms as [[|x l]|]; cbn [nonempty fmap option_fmap option_map];
      [done | | done].
    destruct (List.filter (keep_synonym w) (x :: l)) as [|y kept] eqn:Hkept;
      cbn [nonempty default]; [done|].
    intros Hmap word cs Hcs.
    destruct (IH _ Hmap word cs Hcs) as [Hd|(? & ? & ?)].
    + destruct (decide (w = word)) as [<-|Hne].
      * rewrite lookup_insert_eq in Hd. injection Hd as <-. right.
        split_and!; [by left | done |]. exists (x :: l). by rewrite Hkept.
      * rewrite lookup_insert_ne in Hd by done. by left.
    + right. split_and!; [by right | done..].
Qed.

Lemma map_words_Raise self words d e :
  map_words env self words d = Raise e →
  ∃ word, word ∈ words ∧ get_synonyms env self word = Raise e.
Proof.
  revert d. induction words as [|w words IH]; intros d; simpl; [done|].
  destruct (get_synonyms env self w) as [synonyms|e0] eqn:Hget; cbn [bind].
  - intros Hmap.
    assert (∃ d0, map_words env self words d0 = Raise e) as [d0 Hd0].
    { destruct (nonempty _); [|by eauto].
      destruct (nonempty _); eauto. }
    destruct (IH _ Hd0) as (word & ? & ?). exists word. split; [by right | done].
  - intros [= <-]. exists w. split; [by left | done].
Qed.

End Construction.

(** X7: the only exception that the constructor lets through is the shape
    error of [np.dot]: for the words of the normalized utterance the guards
    of [get_pos] pass, and the part of speech is looked up in the table only
    when the table has it. *)
Theorem init_raises_only_shape_error env text model e :
  init env text model = Raise e → e = ValueError "shapes not aligned".
Proof.
  unfold init, map_synonyms. cbn [_utterance].
  destruct (map_words _ _ _ _) as [d|e0] eqn:Hmap; [done|].
  intros [= <-].
  destruct (map_words_Raise _ _ _ _ _ Hmap) as (word & Hword & Hget).
  apply get_synonyms_Raise in Hget as [Hpos | [He _]]; [|done..].
  rewrite (get_pos_word env _ text word) in Hpos; done.
Qed.

Lemma init_raises_only_shape_error_witness :
  init {| nlp := Demo.tagger; synsets := Demo.wordnet;
          wikimodel := {| get_vector := λ key, if bool_decide (key = py "large")
                                               then Some [1; 2]%float else None;
                          truthy := true |} |}
       (py "Big") None
  = Raise (ValueError "shapes not aligned").
Proof.
  destruct (init _ (py "Big") None) as [g|e] eqn:Hinit.
  - vm_compute in Hinit. discriminate Hinit.
  - f_equal. exact (init_raises_only_shape_error _ _ _ _ Hinit).
Defined.

(** X8: the constructor returns an object when the embedding model that it
    takes has vectors of one length and knows every word of the normalized
    utterance. *)
Theorem init_succeeds env text model m n :
  m = match model with
      | Some m => if truthy m then m else wikimodel env
      | None => wikimodel env
      end →
  (∀ key vec, get_vector m key = Some vec → length vec = n) →
  (∀ word, word ∈ split (preprocess text) → is_Some (get_vector m word)) →
  ∃ g, init env text model = Ok g ∧ _utterance g = preprocess text ∧ _model g = m.
Proof.
  intros Hm Hlen Hknown.
  destruct (init env text model) as [g|e] eqn:Hinit.
  { exists g. destruct (init_fields _ _ _ _ Hinit) as (? & _ & _ & ? & _).
    split_and!; congruence. }
  exfalso. revert Hinit. unfold init, map_synonyms. cbn [_utterance].
  rewrite <- Hm.
  destruct (map_words _ _ _ _) as [d|e0] eqn:Hmap; [done|]. intros _.
  destruct (map_words_Raise _ _ _ _ _ Hmap) as (word & Hword & Hget).
  apply get_synonyms_Raise in Hget as [Hpos | [_ [synonyms Hsims]]]; [| |done].
  - rewrite (get_pos_word env _ text word) in Hpos; done.
  - cbn [_model] in Hsims. unfold get_similarities in Hsims.
    apply score_all_raises, Exists_exists in Hsims as (s & _ & Hany & Hne).
    apply Hne. destruct (Hknown word Hword) as [vec Hvec].
    unfold embed in *. rewrite Hvec, (Hlen _ _ Hvec).
    destruct (get_vector m s) as [vec'|] eqn:Hvec'; [by apply Hlen in Hvec'|done].
Qed.

Lemma init_succeeds_witness :
  ∃ g, init Demo.env (py "BIG big") None = Ok g
       ∧ _utterance g = preprocess (py "BIG big") ∧ _model g = Demo.glove.
Proof.
  apply (init_succeeds Demo.env (py "BIG big") None Demo.glove 2 eq_refl).
  - intros key vec. cbn [get_vector Demo.glove]. unfold Demo.vectors.
    repeat case_bool_decide; by intros [= <-].
  - intros word Hword. vm_compute in Hword.
    apply elem_of_cons in Hword as [->|Hword]; [by eexists|].
    apply list_elem_of_singleton in Hword as ->. by eexists.
Defined.

(** X9: in the synonym map of a constructed object, every key is a word of
    the normalized utterance, longer than one character, whose part of
    speech is one of the six supported ones, and every candidate is a lemma
    of a synset that WordNet gives for the word under the code of that part
    of speech. *)
Theorem synonym_map_provenance env text model g word candidates :
  init env text model = Ok g →
  _synonymsdict g !! word = Some candidates →
  word ∈ split (_utterance g)
  ∧ 1 < len word
  ∧ ∃ pos p,
      get_pos env g word = Ok (Some pos)
      ∧ pos ∈ supported_pos ∧ posmap !! pos = Some p
      ∧ ∀ c, c ∈ candidates → ∃ synset, synset ∈ synsets env word p ∧ c ∈ synset.
Proof.
  intros Hinit Hlookup.
  destruct (init_fields _ _ _ _ Hinit) as (Hu & _ & _ & _ & Hmap).
  destruct (map_words_entry _ _ _ _ _ Hmap word candidates Hlookup)
    as [Hempty | (Hword & Hne & raw & Hget & Hcs)].
  { by rewrite lookup_empty in Hempty. }
  assert (Hnormal : preprocess word = word) by (by apply (preprocess_word text)).
  destruct (get_synonyms_Some _ _ _ _ Hget) as (pos & p & Hpos & Hsup & Hp & Hraw).
  cbn [_posmap] in Hp. rewrite Hnormal in Hpos.
  assert (Hcand : ∀ c, c ∈ candidates →
                       1 < len word ∧ ∃ synset, synset ∈ synsets env word p ∧ c ∈ synset).
  { intros c Hc. rewrite Hcs in Hc.
    apply list_elem_of_In, filter_In in Hc as [Hc Hkeep]. apply list_elem_of_In in Hc.
    destruct (keep_synonym_true _ _ Hkeep) as [_ Hdiff].
    destruct (Hraw c Hc) as [->|?]; [congruence | done]. }
  split_and!.
  - by rewrite Hu.
  - destruct candidates as [|c cs]; [done|]. apply (Hcand c). by left.
  - exists pos, p. split_and!; [|done..|intros c Hc; by apply Hcand].
    rewrite <- Hpos. by apply get_pos_same_utterance.
Qed.

Lemma synonym_map_provenance_witness :
  init Demo.env (py "The big dog") None = Ok Demo.big_dog
  ∧ _synonymsdict Demo.big_dog !! py "big" = Some [py "large"]
  ∧ py "big" ∈ split (_utterance Demo.big_dog)
  ∧ 1 < len (py "big").
Proof.
  assert (Hinit : init Demo.env (py "The big dog") None = Ok Demo.big_dog)
    by (vm_compute; reflexivity).
  assert (Hlookup : _synonymsdict Demo.big_dog !! py "big" = Some [py "large"])
    by (vm_compute; reflexivity).
  pose proof (synonym_map_provenance Demo.env (py "The big dog") None Demo.big_dog
                (py "big") [py "large"] Hinit Hlookup) as (Hword & Hlen & _).
  split_and!; [exact Hinit | exact Hlookup | exact Hword | exact Hlen].
Defined.

(** X10: for every word of the utterance of a constructed object, [get_pos]
    does not raise: it returns the tag that the tagger gives to the first
    token equal to the word, or nothing when no token is equal to it. *)
Theorem get_pos_of_word env text model g word :
  init env text model = Ok g →
  word ∈ split (_utterance g) →
  get_pos env g word
  = Ok (snd <$> List.find (λ w, bool_decide (fst w = word)) (nlp env (_utterance g))).
Proof.
  intros Hinit Hword. destruct (init_fields _ _ _ _ Hinit) as (Hu & _).
  rewrite <- (get_pos_word env g text word Hu Hword).
  f_equal. symmetry. apply (preprocess_word text). by rewrite <- Hu.
Qed.

Lemma get_pos_of_word_witness :
  init Demo.env (py "The big dog") None = Ok Demo.big_dog
  ∧ py "dog" ∈ split (_utterance Demo.big_dog)
  ∧ get_pos Demo.env Demo.big_dog (py "dog") = Ok (Some (py "NOUN")).
Proof.
  assert (Hinit : init Demo.env (py "The big dog") None = Ok Demo.big_dog)
    by (vm_compute; reflexivity).
  assert (Hword : py "dog" ∈ split (_utterance Demo.big_dog)).
  { vm_compute. do 2 apply list_elem_of_further. apply list_elem_of_here. }
  split_and!; [exact Hinit | exact Hword |].
  rewrite (get_pos_of_word Demo.env _ None _ _ Hinit Hword). reflexivity.
Defined.

(** ** The outputs of the assemblers *)

Lemma join_cons sep w l : join sep (w :: l) = w ++ join_after sep l.
Proof. destruct l; [by rewrite app_nil_r | done]. Qed.

Lemma join_middle sep l1 w l2 :
  join sep (l1 ++ w :: l2) = join_before sep l1 ++ w ++ join_after sep l2.
Proof.
  induction l1 as [|a l1 IH]; [apply join_cons|].
  change ((a :: l1) ++ w :: l2) with (a :: (l1 ++ w :: l2)).
  rewrite join_cons.
  destruct l1 as [|b l1].
  { change (join_after sep ([] ++ w :: l2)) with (sep ++ join sep (w :: l2)).
    rewrite join_cons. change (join_before sep [a]) with (a ++ sep).
    by rewrite <- !app_assoc. }
  change (join_after sep ((b :: l1) ++ w :: l2))
    with (sep ++ join sep ((b :: l1) ++ w :: l2)).
  rewrite IH.
  change (join_before sep (a :: b :: l1)) with ((a ++ sep ++ join sep (b :: l1)) ++ sep).
  change (join_before sep (b :: l1)) with (join sep (b :: l1) ++ sep).
  by rewrite <- !app_assoc.
Qed.

Lemma join_snoc sep l w : join sep (l ++ [w]) = join_before sep l ++ w.
Proof. by rewrite join_middle, app_nil_r. Qed.

Lemma find_at_prefix w post i : find_at (w ++ post) w i = Some i.
Proof. destruct (w ++ post) eqn:E; simpl; rewrite <- ?E, starts_with_app; done. Qed.

Lemma find_here pre w post :
  find (pre ++ w ++ post) w (Z.of_nat (length pre)) = Z.of_nat (length pre).
Proof.
  rewrite find_from by (rewrite length_app; lia).
  by rewrite drop_app_length, find_at_prefix.
Qed.

Lemma find_after_separator pre c w post :
  head w ≠ Some c → w ≠ [] →
  find (pre ++ [c] ++ w ++ post) w (Z.of_nat (length pre))
  = Z.of_nat (length (pre ++ [c])).
Proof.
  intros Hhead Hne. rewrite find_from by (rewrite length_app; lia).
  rewrite drop_app_length.
  assert (Hstart : starts_with ([c] ++ w ++ post) w = false).
  { destruct w as [|d w]; [done|]. simpl.
    rewrite decide_False; [done|]. intros ->. by apply Hhead. }
  change ([c] ++ w ++ post) with (c :: w ++ post) in *.
  cbn [find_at]. rewrite Hstart, find_at_prefix, length_app.
  cbn [length]. f_equal. lia.
Qed.

Lemma splice_at u w pre post p candidate :
  u = pre ++ w ++ post →
  find u w p = Z.of_nat (length pre) →
  splice u w p candidate = (Z.of_nat (length pre), pre ++ candidate ++ post).
Proof.
  intros -> Hfind. unfold splice. rewrite Hfind. f_equal.
  unfold slice_to, slice_from, len. rewrite <- Nat2Z.inj_add.
  rewrite !slice_bound_inner by (rewrite !length_app; lia).
  rewrite take_app_length. do 2 f_equal.
  rewrite (app_assoc pre w post), <- length_app. apply drop_app_length.
Qed.

(** On an utterance that is the single-space join of its words, the cursor
    being at the end of the words done, every pass replaces the word of its
    own position. *)
Lemma splice_all_join done todo tokens :
  Forall (is_run Char.is_space) todo →
  Forall2 (λ slist w, ∃ synonyms, slist = w :: synonyms) tokens todo →
  (splice_all (join (py " ") (done ++ todo)) tokens
              (Z.of_nat (length (join (py " ") done)))).*2
  = mjoin (imap (λ i slist,
                   (λ candidate,
                      join (py " ") (<[(length done + i)%nat := candidate]> (done ++ todo)))
                   <$> slist)
                tokens).
Proof.
  intros Hruns Htokens. revert done Hruns.
  induction Htokens as [|slist w tokens todo [synonyms ->] _ IH]; intros done Hruns.
  { done. }
  inversion Hruns as [|? ? [Hne Hw] Hruns']; subst.
  set (u := join (py " ") (done ++ w :: todo)).
  assert (Hu : u = join_before (py " ") done ++ w ++ join_after (py " ") todo)
    by apply join_middle.
  assert (Hfind : find u w (Z.of_nat (length (join (py " ") done)))
                  = Z.of_nat (length (join_before (py " ") done))).
  { rewrite Hu. destruct done as [|a done'].
    - apply (find_here [] w).
    - change (join_before (py " ") (a :: done'))
        with (join (py " ") (a :: done') ++ [Char.space]).
      rewrite <- app_assoc. apply find_after_separator; [|done].
      destruct w as [|d w']; [done|]. inversion Hw as [|? ? Hd _]; subst.
      intros [= ->]. done. }
  cbn [splice_all]. rewrite fmap_app, imap_cons. cbn [mjoin list_join]. f_equal.
  - rewrite <- list_fmap_compose. apply list_fmap_ext. intros _ candidate _.
    cbn [compose]. rewrite (splice_at u w _ _ _ candidate Hu Hfind). cbn [snd].
    rewrite Nat.add_0_r, <- (Nat.add_0_r (length done)), insert_app_r. cbn [insert list_insert].
    by rewrite join_middle.
  - rewrite Hfind. unfold len. rewrite <- Nat2Z.inj_add, <- length_app, <- join_snoc.
    subst u. rewrite (cons_middle w done todo), app_assoc.
    rewrite IH by done. f_equal. apply imap_ext. intros i slist _. cbn [compose].
    rewrite length_app. cbn [length]. by rewrite <- Nat.add_assoc.
Qed.

(** X11: the outputs of [add_synonyms] on a constructed object are exactly
    the utterances obtained by putting, at one position of the sequence of
    words, the word itself or one of its synonyms of the map: each pass
    replaces the word of its own position, also when the word occurs
    elsewhere in the utterance. *)
Theorem add_synonyms_outputs env text model g x :
  init env text model = Ok g →
  x ∈ add_synonyms g
  ↔ ∃ i word candidate,
      split (_utterance g) !! i = Some word
      ∧ candidate ∈ word :: default [] (_synonymsdict g !! word)
      ∧ x = join (py " ") (<[i := candidate]> (split (_utterance g))).
Proof.
  intros Hinit. destruct (init_fields _ _ _ _ Hinit) as (Hu & _).
  assert (Hjoin : join (py " ") (split (_utterance g)) = _utterance g).
  { rewrite Hu, split_preprocess. done. }
  assert (Htokens : Forall2 (λ slist w, ∃ synonyms, slist = w :: synonyms)
                            (word_tokens g) (split (_utterance g))).
  { unfold word_tokens. apply Forall2_fmap_l, Forall_Forall2_diag, Forall_forall.
    intros word _. cbn [compose]. destruct (_synonymsdict g !! word); by eexists. }
  pose proof (splice_all_join [] (split (_utterance g)) (word_tokens g)
                (runs_are_runs _ _) Htokens) as Heq.
  cbn [app length join Nat.add] in Heq. change (Z.of_nat 0) with 0 in Heq.
  rewrite Hjoin in Heq.
  unfold add_synonyms. rewrite elem_of_remove_dups, Heq, list_elem_of_join. split.
  - intros (l & Hx & Hl). apply elem_of_lookup_imap in Hl as (i & slist & -> & Hi).
    unfold word_tokens in Hi.
    apply list_lookup_fmap_Some in Hi as (word & -> & Hword).
    apply list_elem_of_fmap in Hx as (candidate & -> & Hcand).
    exists i, word, candidate. split_and!; [done | | done].
    by destruct (_synonymsdict g !! word).
  - intros (i & word & candidate & Hword & Hcand & ->).
    eexists. split; [|apply elem_of_lookup_imap; eexists i, _; split; [done|]].
    + apply list_elem_of_fmap. exists candidate. split; [done|]. exact Hcand.
    + unfold word_tokens. apply list_lookup_fmap_Some. exists word. split; [|done].
      by destruct (_synonymsdict g !! word).
Qed.

Lemma add_synonyms_outputs_witness :
  init Demo.env (py "The big dog") None = Ok Demo.big_dog
  ∧ py "the large dog" ∈ add_synonyms Demo.big_dog.
Proof.
  assert (Hinit : init Demo.env (py "The big dog") None = Ok Demo.big_dog)
    by (vm_compute; reflexivity).
  split; [exact Hinit|].
  apply (proj2 (add_synonyms_outputs Demo.env (py "The big dog") None Demo.big_dog
                  (py "the large dog") Hinit)).
  exists 1%nat, (py "big"), (py "large"). split_and!.
  - vm_compute. reflexivity.
  - apply list_elem_of_further. vm_compute. apply list_elem_of_here.
  - vm_compute. reflexivity.
Defined.

(** X12: the outputs of [add_phrases] are exactly the utterances in which a
    phrase of the table that occurs in the utterance is replaced by another
    entry of its class that stands before the last position of the class:
    the last entry is a replacement only when the class lists it earlier
    too. *)
Theorem add_phrases_outputs (self : Generator) (x : str) :
  x ∈ add_phrases self
  ↔ ∃ plist phrase i alt,
      plist ∈ _phrasebank self ∧ phrase ∈ plist
      ∧ contains (_utterance self) phrase = true
      ∧ plist !! i = Some alt ∧ (S i < length plist)%nat
      ∧ alt ≠ phrase
      ∧ x = replace (_utterance self) phrase alt.
Proof.
  assert (Hbind : x ∈ (_phrasebank self
                       ≫= λ plist, plist ≫= phrase_variants (_utterance self) plist)
                  ↔ ∃ plist phrase i alt,
                      plist ∈ _phrasebank self ∧ phrase ∈ plist
                      ∧ contains (_utterance self) phrase = true
                      ∧ plist !! i = Some alt ∧ (S i < length plist)%nat
                      ∧ alt ≠ phrase
                      ∧ x = replace (_utterance self) phrase alt).
  { rewrite list_elem_of_bind. split.
    - intros (plist & Hx & Hplist).
      apply list_elem_of_bind in Hx as (phrase & Hx & Hphrase).
      unfold phrase_variants in Hx.
      destruct (contains (_utterance self) phrase) eqn:Hc; [|by apply elem_of_nil in Hx].
      apply list_elem_of_fmap in Hx as (alt & -> & Halt).
      apply list_elem_of_In, filter_In in Halt as [Halt Hne].
      apply list_elem_of_In, elem_of_take in Halt as (i & Hi & Hlt).
      apply negb_true_iff, bool_decide_eq_false in Hne.
      exists plist, phrase, i, alt. split_and!; [done..| lia | done | done].
    - intros (plist & phrase & i & alt & Hplist & Hphrase & Hc & Hi & Hlt & Hne & ->).
      exists plist. split; [|done].
      apply list_elem_of_bind. exists phrase. split; [|done].
      unfold phrase_variants. rewrite Hc.
      apply list_elem_of_fmap. exists alt. split; [done|].
      apply list_elem_of_In, filter_In. split.
      + apply list_elem_of_In, elem_of_take. exists i. split; [done | lia].
      + by apply negb_true_iff, bool_decide_eq_false. }
  unfold add_phrases. destruct (_phrasebank self) as [|p bank] eqn:Hbank; [|exact Hbind].
  split; [by intros ?%elem_of_nil|].
  intros (plist & _ & _ & _ & Hplist & _). by apply elem_of_nil in Hplist.
Qed.

(** ** The synonym map, completeness *)

Lemma get_synonyms_same_fields env self1 self2 word :
  _utterance self1 = _utterance self2 → _posmap self1 = _posmap self2 →
  _model self1 = _model self2 →
  get_synonyms env self1 word = get_synonyms env self2 word.
Proof.
  intros Hu Hp Hm. unfold get_synonyms.
  rewrite (get_pos_same_utterance env self1 self2 _ Hu), Hp, Hm. done.
Qed.

(** An entry that holds what the loop would store for its word is still
    there at the end of the loop. *)
Lemma map_words_keeps env self words d d' word raw :
  map_words env self words d = Ok d' →
  get_synonyms env self word = Ok (Some raw) →
  d !! word = Some (List.filter (keep_synonym word) raw) →
  d' !! word = Some (List.filter (keep_synonym word) raw).
Proof.
  intros Hmap Hget. revert d Hmap. induction words as [|w words IH]; intros d; simpl.
  - by intros [= <-].
  - destruct (get_synonyms env self w) as [synonyms|e] eqn:Hw; [|done]. cbn [bind].
    destruct synonyms as [[|x l]|]; cbn [nonempty fmap option_fmap option_map];
      [apply IH | | apply IH].
    destruct (List.filter (keep_synonym w) (x :: l)) as [|y kept] eqn:Hkept;
      cbn [nonempty default]; [apply IH|].
    intros Hmap Hd. apply (IH _ Hmap).
    destruct (decide (w = word)) as [->|Hne].
    + rewrite lookup_insert_eq. rewrite Hget in Hw. injection Hw as ->.
      by rewrite Hkept.
    + by rewrite lookup_insert_ne.
Qed.

Lemma map_words_stores env self words d d' word raw :
  map_words env self words d = Ok d' →
  word ∈ words →
  get_synonyms env self word = Ok (Some raw) →
  List.filter (keep_synonym word) raw ≠ [] →
  d' !! word = Some (List.filter (keep_synonym word) raw).
Proof.
  intros Hmap Hin Hget Hne. revert d Hmap.
  induction words as [|w words IH]; intros d; [by apply elem_of_nil in Hin|].
  simpl. destruct (decide (w = word)) as [->|Hw].
  - rewrite Hget. cbn [bind].
    destruct raw as [|x l]; [done|]. cbn [nonempty fmap option_fmap option_map].
    destruct (List.filter (keep_synonym word) (x :: l)) as [|y kept] eqn:Hkept; [done|].
    cbn [nonempty default]. intros Hmap. rewrite <- Hkept.
    apply (map_words_keeps _ _ _ _ _ _ _ Hmap Hget).
    by rewrite lookup_insert_eq, Hkept.
  - apply elem_of_cons in Hin as [->|Hin]; [done|].
    destruct (get_synonyms env self w) as [synonyms|e]; [|done]. cbn [bind].
    destruct synonyms as [[|x l]|]; cbn [nonempty fmap option_fmap option_map];
      [by apply IH | | by apply IH].
    destruct (List.filter (keep_synonym w) (x :: l)); cbn [nonempty default];
      by apply IH.
Qed.

(** X13: the synonym map of a constructed object has an entry for every
    word of the utterance for which [get_synonyms] returns candidates of
    which at least one is kept (no [_], a normal form other than the word),
    and the entry is the list of the kept candidates, in the order in which
    [get_synonyms] returns them. *)
Theorem synonym_map_complete env text model g word raw :
  init env text model = Ok g →
  word ∈ split (_utterance g) →
  get_synonyms env g word = Ok (Some raw) →
  List.filter (keep_synonym word) raw ≠ [] →
  _synonymsdict g !! word = Some (List.filter (keep_synonym word) raw).
Proof.
  intros Hinit Hword Hget Hne.
  destruct (init_fields _ _ _ _ Hinit) as (Hu & Hp & _ & _ & Hmap).
  apply (map_words_stores _ _ _ _ _ _ _ Hmap); [by rewrite <- Hu | | done].
  rewrite <- Hget. by apply get_synonyms_same_fields.
Qed.

Lemma synonym_map_complete_witness :
  init Demo.env (py "The big dog") None = Ok Demo.big_dog
  ∧ get_synonyms Demo.env Demo.big_dog (py "big") = Ok (Some (map py ["big"; "large"]))
  ∧ _synonymsdict Demo.big_dog !! py "big"
    = Some (List.filter (keep_synonym (py "big")) (map py ["big"; "large"])).
Proof.
  assert (Hinit : init Demo.env (py "The big dog") None = Ok Demo.big_dog)
    by (vm_compute; reflexivity).
  assert (Hget : get_synonyms Demo.env Demo.big_dog (py "big")
                 = Ok (Some (map py ["big"; "large"])))
    by (vm_compute; reflexivity).
  split_and!; [exact Hinit | exact Hget |].
  apply (synonym_map_complete Demo.env (py "The big dog") None Demo.big_dog
           (py "big") (map py ["big"; "large"]) Hinit); [|exact Hget|].
  - vm_compute. apply list_elem_of_further, list_elem_of_here.
  - vm_compute. discriminate.
Defined.

(** X14: for an input whose normalized utterance is not empty, the
    normalized utterance itself is among the entries that [generate]
    returns, whatever the random draws. *)
Theorem generate_keeps_utterance env text model g draw :
  init env text model = Ok g →
  preprocess text ≠ [] →
  preprocess text ∈ generate draw g.
Proof.
  intros Hinit Hne. destruct (init_fields _ _ _ _ Hinit) as (Hu & _).
  unfold generate. rewrite shuffle_Permutation, elem_of_app. left.
  rewrite <- Hu. apply add_synonyms_has_utterance.
  rewrite Hu. by apply preprocess_nonempty_words.
Qed.

Lemma generate_keeps_utterance_witness :
  init Demo.env (py "The big dog") None = Ok Demo.big_dog
  ∧ preprocess (py "The big dog") ≠ []
  ∧ preprocess (py "The big dog") ∈ generate (λ i, i) Demo.big_dog.
Proof.
  assert (Hinit : init Demo.env (py "The big dog") None = Ok Demo.big_dog)
    by (vm_compute; reflexivity).
  assert (Hne : preprocess (py "The big dog") ≠ []) by (vm_compute; discriminate).
  split_and!; [exact Hinit | exact Hne |].
  exact (generate_keeps_utterance Demo.env (py "The big dog") None Demo.big_dog
           (λ i, i) Hinit Hne).
Defined.
